(** * Symmetric-delete spelling correction: [wordmetric.py] and [spelling.py]

    A shallow embedding of the distance metric ([squash],
    [LevehnsteinDistance]) and of [FarooSpellingCorrector] ([edits],
    [keep_lowest_distance], [add_entry], [add_corpus], [suggest],
    [correct]), followed by the properties of the specification.

    Conventions of the embedding.
    - A Python string is the list of its code points ([str := list N]).
    - Python numbers that may be floats (the values of the metric) are
      exact rationals ([Q]); integers stay in [Z].
    - A Python [set] of [Suggestion] objects (hashed and compared by
      [term]) is a duplicate-free list enumerated in insertion order.
      CPython leaves the enumeration order of a set unspecified; the
      embedding fixes insertion order.
    - A [collections.defaultdict] is a [gmap] together with the read
      [defaultdict_get], which binds an absent key to the default. *)

From Stdlib Require Import String Ascii.
From Stdlib Require Import ZArith NArith QArith Lia Lqa List Sorting.Sorted.
From stdpp Require Import base option list gmap.

Local Open Scope Z_scope.

(** ** Strings *)

Definition char := N.
Definition str := list N.

(** Code points of an ASCII literal. *)
Fixpoint py (s : string) : str :=
  match s with
  | EmptyString => []
  | String a r => N_of_ascii a :: py r
  end.

Definition str_eqb (a b : str) : bool := bool_decide (a = b).

(** ** wordmetric.py *)

Module wordmetric.

(** [itertools.groupby(word)]: maximal runs of equal consecutive
    characters, each with its key. *)
Fixpoint groupby (word : str) : list (char * list char) :=
  match word with
  | [] => []
  | c :: rest =>
      match groupby rest with
      | (k, g) :: gs =>
          if N.eqb c k then (k, c :: g) :: gs else (c, [c]) :: (k, g) :: gs
      | [] => [(c, [c])]
      end
  end.

(** [''.join(''.join(s)[:2] for _, s in itertools.groupby(word))] *)
Definition squash (word : str) : str :=
  concat (map (fun ks => take 2 (snd ks)) (groupby word)).

(** [str.lower] on Basic Latin and the Latin-1 Supplement (A-Z and
    U+00C0-U+00DE except the multiplication sign U+00D7 move up by 32);
    the other code points are left as they are.  This is [str.lower] for
    the code points below 256 only: beyond them [str.lower] changes
    further letters and can return two code points for one, so what is
    proved from the shape of [lower] is stated for words within that
    range ([latin1] below). *)
Definition lower_char (c : char) : char :=
  if ((65 <=? c) && (c <=? 90))%N then (c + 32)%N
  else if ((192 <=? c) && (c <=? 222) && negb (c =? 215))%N then (c + 32)%N
  else c.

Definition lower (s : str) : str := map lower_char s.

(** The accented/unaccented pairs of [LevehnsteinDistance.letter_distance]:
    (a-acute, a), (e-acute, e), (i-acute, i), (o-acute, o), (u-acute, u). *)
Definition accent_pairs : list (char * char) :=
  [(225, 97); (233, 101); (237, 105); (243, 111); (250, 117)]%N.

(** [{a, b} in [...]], reached only when [a != b]. *)
Definition pair_in (a b : char) (ps : list (char * char)) : bool :=
  existsb (fun p => (N.eqb a (fst p) && N.eqb b (snd p))
                    || (N.eqb a (snd p) && N.eqb b (fst p))) ps.

Definition letter_distance (a b : char) : Q :=
  if N.eqb a b then 0%Q
  else if pair_in a b accent_pairs then (1 # 10)%Q
  else 1%Q.

(** Python's [min] of two numbers keeps the first when they compare equal. *)
Definition qmin (a b : Q) : Q := if Qle_bool a b then a else b.

(** The distance matrix [d], a list of rows. *)
Definition matrix := list (list Q).

Definition mget (d : matrix) (i j : nat) : Q := nth j (nth i d []) 0%Q.

Definition mset (d : matrix) (i j : nat) (v : Q) : matrix :=
  <[i := <[j := v]> (nth i d [])]> d.

Definition char_at (s : str) (i : nat) : char := nth i s 0%N.

Section Metric.
(** The letter cost is the only part a subclass overrides. *)
Variable letter_cost : char -> char -> Q.

(** Body of the inner loop: the assignment to [d[i][j]]. *)
Definition cell (s t : str) (d : matrix) (j i : nat) : matrix :=
  let replace_cost := (mget d (i - 1) (j - 1)
                       + letter_cost (char_at s (i - 1)) (char_at t (j - 1)))%Q in
  let delete_cost := (mget d (i - 1) j + 1)%Q in
  let insert_cost := (mget d i (j - 1) + 1)%Q in
  if (2 <=? i)%nat && (2 <=? j)%nat then
    let swap_cost := (mget d (i - 2) (j - 2)
                      + letter_cost (char_at s (i - 2)) (char_at t (j - 1))
                      + letter_cost (char_at s (i - 1)) (char_at t (j - 2))
                      + 1)%Q in
    mset d i j (qmin (qmin (qmin replace_cost delete_cost) insert_cost) swap_cost)
  else
    mset d i j (qmin (qmin replace_cost delete_cost) insert_cost).

(** The table after the two initialisation steps and the double loop,
    for strings already normalised. *)
Definition table (s t : str) : matrix :=
  let m := length s in
  let n := length t in
  let d := repeat (repeat 0%Q (n + 1)) (m + 1) in
  let d := <[0%nat := map (fun i => inject_Z (Z.of_nat i)) (seq 0 (n + 1))]> d in
  let d := fold_left (fun d i => mset d (i + 1) 0 (mget d i 0 + 1)%Q) (seq 0 m) d in
  fold_left (fun d j => fold_left (fun d i => cell s t d j i) (seq 1 m) d)
            (seq 1 n) d.

Definition edit_distance_with (s t : str) : Q :=
  let s := squash (lower s) in
  let t := squash (lower t) in
  mget (table s t) (length s) (length t).
End Metric.

(** [LevehnsteinDistance().edit_distance] *)
Definition edit_distance : str -> str -> Q := edit_distance_with letter_distance.

(** *** [class TypoAdmissiveDistance] *)

(** [keyboard_map]; the last letter of the second row is n-tilde
    (U+00F1). *)
Definition keyboard_map : list (list (option char)) :=
  [ map Some (py "qwertyuiop");
    None :: map Some (py "asdfghjkl" ++ [241%N]);
    None :: None :: map Some (py "zxcvbnm") ].

Definition typo_value : Q := 8 # 10.

(** [dist_dict[(current, other)] = typo_value] and
    [dist_dict[(other, current)] = typo_value]; [dist_dict] is a
    [defaultdict(lambda: 1)] keyed by pairs, and a place of the keyboard
    map may hold [None]. *)
Definition link (dist : gmap (option char * option char) Q)
    (current : char) (other : option char)
  : gmap (option char * option char) Q :=
  <[(other, Some current) := typo_value]>
    (<[(Some current, other) := typo_value]> dist).

(** [keyboard_map[y][x]], read where the guards have checked the bounds. *)
Definition key_at (y x : nat) : option char :=
  nth x (nth y keyboard_map []) None.

(** Body of the loop over the columns [x] of the row [y]. *)
Definition visit (dist : gmap (option char * option char) Q) (y x : nat)
  : gmap (option char * option char) Q :=
  match key_at y x with
  | None => dist
  | Some current =>
      let row := nth y keyboard_map [] in
      let dist :=
        if (x + 1 <? length row)%nat
        then link dist current (key_at y (x + 1)) else dist in
      let dist :=
        if (y + 1 <? length keyboard_map)%nat
           && (x <? length (nth (y + 1) keyboard_map []))%nat
        then link dist current (key_at (y + 1) x) else dist in
      let dist :=
        if (y + 1 <? length keyboard_map)%nat
           && (x + 1 <? length (nth (y + 1) keyboard_map []))%nat
        then link dist current (key_at (y + 1) (x + 1)) else dist in
      dist
  end.

Definition build_distance_dictionary : gmap (option char * option char) Q :=
  fold_left
    (fun dist y =>
       fold_left (fun dist x => visit dist y x)
                 (seq 0 (length (nth y keyboard_map []))) dist)
    (seq 0 (length keyboard_map)) ∅.

(** [TypoAdmissiveDistance.letter_distance] with the dictionary it
    leaves: the read of an absent pair binds it to the default 1. *)
Definition typo_letter_distance_read
    (dist : gmap (option char * option char) Q) (a b : char)
  : Q * gmap (option char * option char) Q :=
  if N.eqb a b then (0%Q, dist)
  else match dist !! (Some a, Some b) with
       | Some v => (v, dist)
       | None => (1%Q, <[(Some a, Some b) := 1%Q]> dist)
       end.

(** The value [letter_distance] returns. *)
Definition typo_letter_distance
    (dist : gmap (option char * option char) Q) (a b : char) : Q :=
  fst (typo_letter_distance_read dist a b).

(** [TypoAdmissiveDistance().edit_distance]: the inherited method with
    the overriding letter distance. The reads of [dist_dict] leave its
    values as they are, so the dictionary is not threaded through. *)
Definition typo_edit_distance : str -> str -> Q :=
  edit_distance_with (typo_letter_distance build_distance_dictionary).

End wordmetric.

(** ** spelling.py *)

Module spelling.

(** [class Term]: a dictionary entry. *)
Record Term := mkTerm { t_term : str; t_count : Z }.

(** [class Suggestion]. Every [distance] the corrector stores is an [int];
    the constructor's default [float('inf')] is used by no method. *)
Record Suggestion := mkSuggestion { term : str; count : Z; distance : Z }.

(** *** Sets of suggestions

    [__hash__] and [__eq__] look at [term] only. *)
Definition set_in (s : Suggestion) (l : list Suggestion) : bool :=
  existsb (fun x => str_eqb (term x) (term s)) l.

(** [set.add]: an element equal to a member is not added. *)
Definition set_add (l : list Suggestion) (s : Suggestion) : list Suggestion :=
  if set_in s l then l else l ++ [s].

(** [set.update] *)
Definition set_update (l new : list Suggestion) : list Suggestion :=
  fold_left set_add new l.

(** *** The deletion generator *)

(** [entry[:i] + entry[i + 1:]] *)
Definition remove_at (i : nat) (entry : str) : str :=
  take i entry ++ drop (S i) entry.

(** [edits(entry, max_distance, distance)]. The recursive call is on a
    string one character shorter, so the definition recurses on a
    counter [len] that [edits] starts at [len(entry)]. *)
Fixpoint edits_rec (len : nat) (entry : str) (max_distance distance : Z)
  : list Suggestion :=
  match len with
  | O => []
  | S len' =>
      let n := length entry in
      if (1 <? n)%nat then
        fold_left
          (fun deletes i =>
             let modified_entry := remove_at i entry in
             let delete := mkSuggestion modified_entry 0 distance in
             if set_in delete deletes then deletes
             else
               let deletes := set_add deletes delete in
               if distance <? max_distance then
                 set_update deletes
                   (edits_rec len' modified_entry max_distance (distance + 1))
               else deletes)
          (seq 0 n) []
      else []
  end.

Definition edits (entry : str) (max_distance distance : Z) : list Suggestion :=
  edits_rec (length entry) entry max_distance distance.

(** *** The corrector *)

Record Corrector := mkCorrector {
  max_distance : Z;
  keep_all_suggestions : bool;
  dictionary : gmap str (option Term);
  suggestions : gmap str (list Suggestion);
  metric : str -> str -> Q
}.

(** [FarooSpellingCorrector(max_distance=..., keep_all_suggestions=...,
    metric=...)] *)
Definition new (md : Z) (keep_all : bool) (m : str -> str -> Q) : Corrector :=
  mkCorrector md keep_all ∅ ∅ m.

(** The default metric, [wordmetric.LevehnsteinDistance()]. *)
Definition Faroo (md : Z) (keep_all : bool) : Corrector :=
  new md keep_all wordmetric.edit_distance.

(** [d[k]] on a [defaultdict] with default value [dflt]: an absent key is
    bound to the default by the read. *)
Definition defaultdict_get {V} (d : gmap str V) (k : str) (dflt : V)
  : V * gmap str V :=
  match d !! k with
  | Some v => (v, d)
  | None => (dflt, <[k := dflt]> d)
  end.

Definition keep_lowest_distance (keep_all : bool)
    (suggestion_list : list Suggestion) (suggestion : Suggestion)
  : list Suggestion :=
  let suggestion_list :=
    match suggestion_list with
    | first :: _ =>
        if negb keep_all && (distance suggestion <? distance first)
        then [] else suggestion_list
    | [] => suggestion_list
    end in
  if keep_all
     || match suggestion_list with
        | [] => true
        | first :: _ => distance suggestion <=? distance first
        end
  then suggestion_list ++ [suggestion]
  else suggestion_list.

(** One round of the loop [for delete in deletes] of [add_entry]. *)
Definition index_delete (keep_all : bool) (entry : str)
    (sugg : gmap str (list Suggestion)) (delete : Suggestion)
  : gmap str (list Suggestion) :=
  let suggestion := mkSuggestion entry 0 (distance delete) in
  let '(l, sugg) := defaultdict_get sugg (term delete) [] in
  <[term delete := keep_lowest_distance keep_all l suggestion]> sugg.

Definition bump (t : Term) : Term := mkTerm (t_term t) (t_count t + 1).

Definition add_entry (c : Corrector) (entry : str) : bool * Corrector :=
  let '(t, dict) := defaultdict_get (dictionary c) entry None in
  match t with
  | None =>
      let t := mkTerm entry 0 in
      let deletes := edits entry (max_distance c) 1 in
      let sugg := <[entry := [mkSuggestion entry 0 0]]> (suggestions c) in
      let sugg := fold_left (index_delete (keep_all_suggestions c) entry)
                            deletes sugg in
      (true, mkCorrector (max_distance c) (keep_all_suggestions c)
                         (<[entry := Some (bump t)]> dict) sugg (metric c))
  | Some t =>
      (false, mkCorrector (max_distance c) (keep_all_suggestions c)
                          (<[entry := Some (bump t)]> dict) (suggestions c)
                          (metric c))
  end.

Definition add_corpus (c : Corrector) (corpus : list str) : Z * Corrector :=
  fold_left
    (fun '(new_word_count, c) word =>
       let '(is_new, c) := add_entry c word in
       (if is_new then new_word_count + 1 else new_word_count, c))
    corpus (0, c).

(** The corrector after the words of [corpus] have been added. *)
Definition index_of (c : Corrector) (corpus : list str) : Corrector :=
  snd (add_corpus c corpus).

(** *** Querying *)

Definition Qlt_bool (a b : Q) : bool := negb (Qle_bool b a).

(** The value of the local [distance] of [suggest] for the indexed
    suggestion [candidate_suggestion] found under [candidate]. *)
Definition found_distance (c : Corrector) (word : str)
    (candidate candidate_suggestion : Suggestion) : Q :=
  if negb (str_eqb (term candidate_suggestion) (term candidate))
  then metric c (term candidate) word
  else inject_Z (distance candidate_suggestion).

(** Body of [for candidate_suggestion in candidate_suggestions]; the
    accumulator is the set [suggestions], and [next(iter(suggestions))]
    is its first element. *)
Definition consider (c : Corrector) (word : str) (candidate : Suggestion)
    (suggestions : list Suggestion) (candidate_suggestion : Suggestion)
  : list Suggestion :=
  let distance := found_distance c word candidate candidate_suggestion in
  if Qle_bool distance (inject_Z (max_distance c)) then
    match suggestions with
    | some_suggestion :: _ =>
        if negb (keep_all_suggestions c) then
          if Qlt_bool (inject_Z (spelling.distance some_suggestion)) distance
          then suggestions
          else if Qlt_bool distance (inject_Z (spelling.distance some_suggestion))
          then set_add [] candidate_suggestion
          else set_add suggestions candidate_suggestion
        else set_add suggestions candidate_suggestion
    | [] => set_add suggestions candidate_suggestion
    end
  else suggestions.

(** Body of [for candidate_edit in candidate_edits]; the accumulator is
    the pair of the deque [candidates] and the set [seen]. *)
Definition enqueue (qs : list Suggestion * list Suggestion)
    (candidate_edit : Suggestion) : list Suggestion * list Suggestion :=
  let '(candidates, seen) := qs in
  if set_in candidate_edit seen then (candidates, seen)
  else (candidates ++ [candidate_edit], set_add seen candidate_edit).

(** The variables of the [while] loop of [suggest], with the index, which
    the reads of [self.suggestions] may extend. *)
Record Search := mkSearch {
  found : list Suggestion;
  candidates : list Suggestion;
  seen : list Suggestion;
  index : gmap str (list Suggestion)
}.

(** One round of the [while] loop, [candidate] being the popped element
    and [rest] the remaining deque. *)
Definition round (c : Corrector) (word : str) (candidate : Suggestion)
    (rest : list Suggestion) (st : Search) : Search :=
  let '(candidate_suggestions, idx) :=
    defaultdict_get (index st) (term candidate) [] in
  let found := fold_left (consider c word candidate)
                         candidate_suggestions (found st) in
  let '(queue, seen) :=
    if distance candidate <? max_distance c
    then fold_left enqueue (edits (term candidate) 1 1) (rest, seen st)
    else (rest, seen st) in
  mkSearch found queue seen idx.

(** The [while] loop, bounded by a number of rounds. *)
Fixpoint search (rounds : nat) (c : Corrector) (word : str) (st : Search)
  : option Search :=
  match candidates st with
  | [] => Some st
  | candidate :: rest =>
      match rounds with
      | O => None
      | S rounds' => search rounds' c word (round c word candidate rest st)
      end
  end.

(** A bound on the number of rounds started by a candidate of length [n]:
    the candidate itself and at most [n] expansions one character shorter. *)
Fixpoint weight (n : nat) : nat :=
  match n with
  | O => 1
  | S n' => 1 + n * weight n'
  end.

(** The sort key [(s.distance, s.count)] and its strict order. *)
Definition key (s : Suggestion) : Z * Z := (distance s, count s).

Definition key_ltb (a b : Suggestion) : bool :=
  (distance a <? distance b)
  || ((distance a =? distance b) && (count a <? count b)).

(** [sorted(..., key=...)] is stable: an element goes behind every
    element whose key is not greater. *)
Fixpoint insert_by_key (s : Suggestion) (l : list Suggestion) : list Suggestion :=
  match l with
  | [] => [s]
  | h :: t => if key_ltb s h then s :: l else h :: insert_by_key s t
  end.

Definition sorted (l : list Suggestion) : list Suggestion :=
  fold_left (fun acc s => insert_by_key s acc) l [].

Definition with_index (c : Corrector) (idx : gmap str (list Suggestion))
  : Corrector :=
  mkCorrector (max_distance c) (keep_all_suggestions c) (dictionary c) idx
              (metric c).

(** [suggest(word)]: the returned list and the corrector afterwards;
    [None] only if the loop were cut short by the bound on its rounds. *)
Definition suggest (c : Corrector) (word : str)
  : option (list Suggestion * Corrector) :=
  let start := mkSuggestion word 1 0 in
  match search (weight (length word)) c word
               (mkSearch [] [start] [start] (suggestions c)) with
  | Some st => Some (sorted (found st), with_index c (index st))
  | None => None
  end.

(** [correct(word)]: [suggestions[0] if suggestions else None]. *)
Definition correct (c : Corrector) (word : str)
  : option (option Suggestion * Corrector) :=
  match suggest c word with
  | Some (suggestions, c') => Some (head suggestions, c')
  | None => None
  end.

End spelling.

Import spelling.

(** ** Words and correctors of the examples *)

Definition hello : str := py "hello".
Definition hell : str := py "hell".

(** [u"AREA"] with A-acute (U+00C1) and [u"area"] with a-acute (U+00E1). *)
Definition AREA_acute : str := 193%N :: py "REA".
Definition area_acute : str := 225%N :: py "rea".

(** [FarooSpellingCorrector(keep_all_suggestions=keep_all, max_distance=2)]
    after [add_corpus(["hello", "hell"])]. *)
Definition hello_hell (keep_all : bool) : Corrector :=
  index_of (Faroo 2 keep_all) [hello; hell].

(** What a caller sees of [suggest] and [correct]: the returned value. *)
Definition suggested (c : Corrector) (word : str) : option (list Suggestion) :=
  fst <$> suggest c word.

Definition corrected (c : Corrector) (word : str) : option (option Suggestion) :=
  fst <$> correct c word.

(** *** Deleting characters

    [deletes_to i w v]: [v] is obtained from [w] by deleting exactly [i]
    characters, one position after the other. *)
Inductive deletes_to : nat -> str -> str -> Prop :=
| deletes_none (w : str) : deletes_to 0 w w
| deletes_one (i j : nat) (w v : str) :
    (j < length w)%nat ->
    deletes_to i (remove_at j w) v ->
    deletes_to (S i) w v.

(** The body of the loop [for i in range(n)] of [edits], for the
    equation [edits_rec_S]. *)
Definition edits_step (len' : nat) (entry : str) (max_distance distance : Z)
    (deletes : list Suggestion) (i : nat) : list Suggestion :=
  let modified_entry := remove_at i entry in
  let delete := mkSuggestion modified_entry 0 distance in
  if set_in delete deletes then deletes
  else
    let deletes := set_add deletes delete in
    if distance <? max_distance then
      set_update deletes
        (edits_rec len' modified_entry max_distance (distance + 1))
    else deletes.

(** What [edits(entry, max_distance, distance)] says of a suggestion [s]
    it returns: a non-empty proper subsequence of [entry], numbered from
    [distance] by the characters deleted. *)
Definition generated (entry : str) (max_distance distance : Z) (s : Suggestion)
  : Prop :=
  count s = 0 /\
  term s `sublist_of` entry /\
  (1 <= length (term s))%nat /\
  (length (term s) < length entry)%nat /\
  spelling.distance s
    = distance + Z.of_nat (length entry - length (term s)) - 1 /\
  ((length entry - length (term s) <= 1)%nat \/ spelling.distance s <= max_distance).

(** Invariant of the loop of [edits]: the deletions of every variant
    one character shorter than [entry] that the set holds are in the set
    too, whenever the recursion is entered at all. *)
Definition expanded (len' : nat) (entry : str) (max_distance distance : Z)
    (deletes : list Suggestion) : Prop :=
  forall m t : str,
    m ∈ map term deletes ->
    length m = (length entry - 1)%nat ->
    distance < max_distance ->
    t ∈ map term (edits_rec len' m max_distance (distance + 1)) ->
    t ∈ map term deletes.

Definition terms_within (a b : list Suggestion) : Prop :=
  forall t : str, t ∈ map term a -> t ∈ map term b.

(** The measure of the [while] loop of [suggest]: the rounds the queued
    candidates can still start. *)
Fixpoint queue_weight (q : list Suggestion) : nat :=
  match q with
  | [] => 0
  | x :: q' => weight (length (term x)) + queue_weight q'
  end.

(** The index [b] is the index [a] but for keys absent from [a] and bound
    to the empty list in [b]. *)
Definition index_extends (a b : gmap str (list Suggestion)) : Prop :=
  forall k : str, b !! k = a !! k \/ (a !! k = None /\ b !! k = Some []).

(** [s] is one of the suggestions stored in the index. *)
Definition from_index (idx : gmap str (list Suggestion)) (s : Suggestion) : Prop :=
  exists (k : str) (l : list Suggestion), idx !! k = Some l /\ s ∈ l.

(** The order of the keys [(distance, count)]. *)
Definition key_le (a b : Suggestion) : Prop :=
  distance a < distance b \/ (distance a = distance b /\ count a <= count b).

(** The correctors a program can hold: a new one, and one obtained from
    another by [add_entry], [suggest] or [correct]. *)
Inductive reachable : Corrector -> Prop :=
| reach_new (md : Z) (keep_all : bool) (m : str -> str -> Q) :
    reachable (new md keep_all m)
| reach_add_entry (c : Corrector) (entry : str) :
    reachable c -> reachable (snd (add_entry c entry))
| reach_suggest (c : Corrector) (word : str) (r : list Suggestion) (c' : Corrector) :
    reachable c -> suggest c word = Some (r, c') -> reachable c'
| reach_correct (c : Corrector) (word : str) (r : option Suggestion) (c' : Corrector) :
    reachable c -> correct c word = Some (r, c') -> reachable c'.

Definition counts_zero (idx : gmap str (list Suggestion)) : Prop :=
  forall (k : str) (l : list Suggestion) (s : Suggestion),
    idx !! k = Some l -> s ∈ l -> count s = 0.

(** Invariant of the search started on the index [idx0]. *)
Definition search_keeps (idx0 : gmap str (list Suggestion)) (st : Search) : Prop :=
  index_extends idx0 (index st) /\
  forall s : Suggestion, s ∈ found st -> from_index idx0 s.


(** C2 as the specification states it: the results are in the order of
    their keys, the distance of a result is the metric between the query
    and its word, and its count is the frequency of the word. *)
Definition ranked_by_metric_and_frequency (c : Corrector) (word : str) : Prop :=
  forall r : list Suggestion,
    suggested c word = Some r ->
    StronglySorted key_le r /\
    forall s : Suggestion,
      s ∈ r ->
      (inject_Z (distance s) == metric c word (term s))%Q /\
      exists t : Term,
        dictionary c !! term s = Some (Some t) /\ count s = t_count t.

(** *** What [add_entry] records under a key

    [variant_distance md w v]: the distance with which [add_entry]
    writes the word [w] under the key [v]: 0 under its own key, and the
    distance its call of [edits] gives the variant otherwise.  This
    follows the code and serves the invariants of the index; which words
    produce a variant by deletions is [produces], further down. *)
Definition variant_distance (md : Z) (w v : str) : option Z :=
  if decide (v = w) then Some 0
  else distance <$> find (fun s => str_eqb (term s) v) (edits w md 1).

(** The suggestions [add_entry] writes under [v] for the words [words],
    in their order. *)
Definition producers (md : Z) (words : list str) (v : str) : list Suggestion :=
  omap (fun w => mkSuggestion w 0 <$> variant_distance md w v) words.



(** The distinct words of a corpus, in the order of their first
    occurrence. *)
Definition first_occurrences (corpus : list str) : list str :=
  fold_left (fun seen w => if decide (w ∈ seen) then seen else seen ++ [w])
            corpus [].


(** C6 as the specification states it, for a word longer than one
    character and [k >= 1]: the variants [edits] returns are the strings
    that [i] deletions give, for some [1 <= i <= k]. *)
Definition exactly_the_deletions (w : str) (k : Z) : Prop :=
  forall v : str,
    v ∈ map term (edits w k 1)
    <-> exists i : nat, (1 <= i)%nat /\ Z.of_nat i <= k /\ deletes_to i w v.

(** *** Soundness of the dictionary and of the index

    Every dictionary entry is a [Term] for its key with a positive count;
    the defaultdict never keeps its default [None] there. *)
Definition dictionary_sound (c : Corrector) : Prop :=
  forall w : str,
    match dictionary c !! w with
    | None => True
    | Some None => False
    | Some (Some t) => t_term t = w /\ 1 <= t_count t
    end.

(** What the index says with a suggestion [s] under the key [k]. *)
Definition entry_sound (c : Corrector) (k : str) (s : Suggestion) : Prop :=
  count s = 0 /\
  k `sublist_of` term s /\
  distance s = Z.of_nat (length (term s) - length k) /\
  distance s <= Z.max 1 (max_distance c) /\
  exists t : Term, dictionary c !! term s = Some (Some t).

Definition index_sound (c : Corrector) : Prop :=
  dictionary_sound c /\
  forall (k : str) (l : list Suggestion),
    suggestions c !! k = Some l ->
    NoDup (map term l) /\ forall s : Suggestion, s ∈ l -> entry_sound c k s.

(** Invariant of the search for [word] started on the index [idx0]: the
    candidates are subsequences of the query, the found suggestions are
    distinct words, each stored in [idx0] under a subsequence of the
    query. *)
Definition search_sound (word : str) (idx0 : gmap str (list Suggestion))
    (st : Search) : Prop :=
  index_extends idx0 (index st) /\
  Forall (fun x => term x `sublist_of` word) (candidates st) /\
  NoDup (map term (found st)) /\
  forall s : Suggestion,
    s ∈ found st ->
    exists (k : str) (l : list Suggestion),
      k `sublist_of` word /\ idx0 !! k = Some l /\ s ∈ l.

(** The number of times [w] occurs in a corpus. *)
Definition occurrences (w : str) (corpus : list str) : nat :=
  length (filter (fun x => x = w) corpus).

(** *** The index that keeps all suggestions

    The words of [ws] from the first occurrence of [v] on. *)
Fixpoint from_word (v : str) (ws : list str) : list str :=
  match ws with
  | [] => []
  | w :: r => if decide (w = v) then ws else from_word v r
  end.

(** The words whose suggestions a key [v] still lists when all
    suggestions are kept: those added since [v] itself was added, and
    all of them when [v] is no word of the dictionary. *)
Definition heard (v : str) (ws : list str) : list str :=
  if decide (v ∈ ws) then from_word v ws else ws.

Definition kept_all (md : Z) (words : list str) (c : Corrector) : Prop :=
  max_distance c = md /\
  keep_all_suggestions c = true /\
  (forall w : str,
      ((w ∉ words) /\ dictionary c !! w = None)
      \/ ((w ∈ words) /\ exists t, dictionary c !! w = Some (Some t))) /\
  forall v : str,
    default [] (suggestions c !! v) = producers md (heard v words) v.

(** *** Runs of characters

    [has_triple w]: some character stands three times in a row in [w]. *)
Fixpoint has_triple (w : str) : bool :=
  match w with
  | a :: r =>
      match r with
      | b :: c :: _ => (N.eqb a b && N.eqb b c) || has_triple r
      | _ => false
      end
  | [] => false
  end.

(** What [itertools.groupby] returns: groups of copies of their key, a
    group's key differing from the next group's. *)
Fixpoint grouped (gs : list (char * list char)) : Prop :=
  match gs with
  | [] => True
  | kg :: gs' =>
      (exists g', snd kg = fst kg :: g' /\ Forall (eq (fst kg)) g') /\
      match gs' with
      | kg2 :: _ => fst kg2 <> fst kg
      | [] => True
      end /\
      grouped gs'
  end.

(** *** The distance table

    A natural number as a Python number. *)
Definition qn (k : nat) : Q := inject_Z (Z.of_nat k).

(** A table of [m + 1] rows of [n + 1] cells. *)
Definition shaped (m n : nat) (d : wordmetric.matrix) : Prop :=
  length d = S m /\ Forall (fun row => length row = S n) d.

(** The value the inner loop assigns to [d[i][j]], read off the table
    [d] as it is before the assignment. *)
Definition cell_value (cost : char -> char -> Q) (s t : str)
    (d : wordmetric.matrix) (j i : nat) : Q :=
  let replace_cost :=
    (wordmetric.mget d (i - 1) (j - 1)
     + cost (wordmetric.char_at s (i - 1)) (wordmetric.char_at t (j - 1)))%Q in
  let delete_cost := (wordmetric.mget d (i - 1) j + 1)%Q in
  let insert_cost := (wordmetric.mget d i (j - 1) + 1)%Q in
  if (2 <=? i)%nat && (2 <=? j)%nat then
    let swap_cost :=
      (wordmetric.mget d (i - 2) (j - 2)
       + cost (wordmetric.char_at s (i - 2)) (wordmetric.char_at t (j - 1))
       + cost (wordmetric.char_at s (i - 1)) (wordmetric.char_at t (j - 2))
       + 1)%Q in
    wordmetric.qmin
      (wordmetric.qmin (wordmetric.qmin replace_cost delete_cost) insert_cost)
      swap_cost
  else
    wordmetric.qmin (wordmetric.qmin replace_cost delete_cost) insert_cost.

(** The borders of a table are the sequences 0, 1, 2, ... and the cells
    that [filled] names obey the recurrence, within the table itself. *)
Definition recurrence (cost : char -> char -> Q) (s t : str)
    (filled : nat -> nat -> Prop) (d : wordmetric.matrix) : Prop :=
  (forall j : nat, (j <= length t)%nat -> wordmetric.mget d 0 j = qn j) /\
  (forall i : nat, (i <= length s)%nat -> (wordmetric.mget d i 0 == qn i)%Q) /\
  forall i j : nat,
    (1 <= i <= length s)%nat -> (1 <= j <= length t)%nat -> filled i j ->
    wordmetric.mget d i j = cell_value cost s t d j i.

(** Invariant of the construction of [dist_dict]: a pair and its mirror
    image have the same entry, and every entry is 0.8. *)
Definition typo_table (dist : gmap (option char * option char) Q) : Prop :=
  (forall a b, dist !! (a, b) = dist !! (b, a)) /\
  forall k v, dist !! k = Some v -> v = wordmetric.typo_value.

(** Two states of the search that differ at most in keys of the index
    bound to the empty list. *)
Definition same_search (st1 st2 : Search) : Prop :=
  found st1 = found st2 /\
  candidates st1 = candidates st2 /\
  seen st1 = seen st2 /\
  forall k : str, default [] (index st1 !! k) = default [] (index st2 !! k).

(** *** Words producing a variant

    [produces k w v d]: deleting [d] characters of the word [w], at most
    [k] of them, gives [v]; with [d = 0] the variant is the word itself. *)
Definition produces (k : Z) (w v : str) (d : Z) : Prop :=
  0 <= d <= k /\ deletes_to (Z.to_nat d) w v.


(** [s] is a suggestion for a word of [words] that produces [v] within
    [k] deletions, with the number of deletions as its distance. *)
Definition producer (k : Z) (words : list str) (v : str) (s : Suggestion)
  : Prop :=
  count s = 0 /\ term s ∈ words /\ produces k (term s) v (distance s).


(** The set [suggestions] of [suggest] when its loop has ended, before
    it is sorted. *)
Definition accepted (c : Corrector) (word : str) : option (list Suggestion) :=
  let start := mkSuggestion word 1 0 in
  found <$> search (weight (length word)) c word
                   (mkSearch [] [start] [start] (suggestions c)).

(** Words of code points below 256, where [wordmetric.lower] is
    [str.lower]. *)
Definition latin1 (s : str) : Prop := Forall (fun c => (c < 256)%N) s.

(** * Properties *)

(** ** The metric *)

Lemma edit_distance_normalises (s s' t : str) :
  wordmetric.squash (wordmetric.lower s) = wordmetric.squash (wordmetric.lower s') ->
  wordmetric.edit_distance s t = wordmetric.edit_distance s' t.
Proof.
  intros Hn. unfold wordmetric.edit_distance, wordmetric.edit_distance_with.
  cbv zeta. rewrite Hn. reflexivity.
Qed.

(** C9. The base metric takes the documented values: 0 on "hello"/"HELLO",
    2 on "hello"/"ell", 3 on "penguin"/"pencil", 2 on "hallo"/"hell", 0 on
    the two spellings of "area" that differ in case only, 1/10 when they
    differ in the accent, and a run of ten "o" counts like a run of two
    against every other string. *)
Theorem C9_documented_distances :
  (wordmetric.edit_distance hello (py "HELLO") == 0)%Q /\
  (wordmetric.edit_distance hello (py "ell") == 2)%Q /\
  (wordmetric.edit_distance (py "penguin") (py "pencil") == 3)%Q /\
  (wordmetric.edit_distance (py "hallo") hell == 2)%Q /\
  (wordmetric.edit_distance AREA_acute area_acute == 0)%Q /\
  (wordmetric.edit_distance AREA_acute (py "area") == 1 # 10)%Q /\
  (forall t : str,
      wordmetric.edit_distance (py "woooooooooo") t
      = wordmetric.edit_distance (py "woo") t).
Proof.
  do 6 (split; [vm_compute; reflexivity |]).
  intros t. apply edit_distance_normalises. vm_compute. reflexivity.
Qed.

(** ** The documented queries *)

(** C7. On the corpus ["hello", "hell"] with [max_distance=2]: keeping all
    suggestions, [suggest("hel")] is hell then hello; keeping the lowest
    only, [suggest("hel")] and [suggest("help")] are hell alone,
    [suggest("hallo")] is hello alone, and [correct("hel")] is hell. *)
Theorem C7_hello_hell_queries :
  suggested (hello_hell true) (py "hel")
    = Some [mkSuggestion hell 0 1; mkSuggestion hello 0 2] /\
  suggested (hello_hell false) (py "hel") = Some [mkSuggestion hell 0 1] /\
  suggested (hello_hell false) (py "help") = Some [mkSuggestion hell 0 1] /\
  suggested (hello_hell false) (py "hallo") = Some [mkSuggestion hello 0 1] /\
  corrected (hello_hell false) (py "hel") = Some (Some (mkSuggestion hell 0 1)).
Proof. repeat split; vm_compute; reflexivity. Qed.

(** ** Where the code departs from the specification *)

(** What [suggest] computes for an indexed suggestion whose word is not
    the candidate: the metric between the candidate and the query; the
    suggestion's word does not enter. *)
Lemma found_distance_other (c : Corrector) (word : str) (candidate s : Suggestion) :
  term s <> term candidate ->
  found_distance c word candidate s = metric c (term candidate) word.
Proof.
  intros Hne. unfold found_distance, str_eqb.
  rewrite bool_decide_eq_false_2 by exact Hne. reflexivity.
Qed.

Lemma found_distance_self (c : Corrector) (word : str) (candidate s : Suggestion) :
  term s = term candidate ->
  found_distance c word candidate s = inject_Z (distance s).
Proof.
  intros He. unfold found_distance, str_eqb.
  rewrite bool_decide_eq_true_2 by exact He. reflexivity.
Qed.

(** C1. With the dictionary ["abcd"] and [max_distance=2], the query "xyab"
    reaches the candidate "ab", under which "abcd" is indexed at two
    deletions. The distance [suggest] computes there is that of "ab" to
    the query, 2, and "abcd" is returned, although the metric puts "abcd"
    at 4 from the query. *)
Theorem C1_distance_of_candidate_not_of_word :
  let c := index_of (Faroo 2 false) [py "abcd"] in
  let abcd := mkSuggestion (py "abcd") 0 2 in
  suggestions c !! py "ab" = Some [abcd] /\
  (found_distance c (py "xyab") (mkSuggestion (py "ab") 0 1) abcd == 2)%Q /\
  (wordmetric.edit_distance (py "ab") (py "xyab") == 2)%Q /\
  (wordmetric.edit_distance (py "xyab") (py "abcd") == 4)%Q /\
  suggested c (py "xyab") = Some [abcd].
Proof. repeat split; vm_compute; reflexivity. Qed.

(** C3. Keeping all suggestions with [max_distance=2]: "hell" is a deletion
    variant of "hello", and after adding "hello" it is indexed under
    "hell"; adding "hell" next leaves only "hell" itself under that key.
    Added in the other order, both words stay. *)
Theorem C3_own_key_is_reset :
  py "hell" ∈ map term (edits hello 2 1) /\
  suggestions (index_of (Faroo 2 true) [hello]) !! hell
    = Some [mkSuggestion hello 0 1] /\
  suggestions (index_of (Faroo 2 true) [hello; hell]) !! hell
    = Some [mkSuggestion hell 0 0] /\
  suggestions (index_of (Faroo 2 true) [hell; hello]) !! hell
    = Some [mkSuggestion hell 0 0; mkSuggestion hello 0 1].
Proof.
  repeat split; try (vm_compute; reflexivity).
  apply list_elem_of_In. vm_compute. tauto.
Qed.

(** C8. With the dictionary ["a"] and [max_distance=2], the query "abcd" is
    at distance 3 from the only dictionary word, yet [suggest] returns
    that word and [correct] returns it too: candidates and their
    expansions all carry the distance 1, so the expansion goes on down to
    "a", three deletions from the query. *)
Theorem C8_far_word_is_suggested :
  let c := index_of (Faroo 2 false) [py "a"] in
  (wordmetric.edit_distance (py "abcd") (py "a") == 3)%Q /\
  map distance (edits (py "abcd") 1 1) = [1; 1; 1; 1] /\
  map distance (edits (py "bcd") 1 1) = [1; 1; 1] /\
  suggested c (py "abcd") = Some [mkSuggestion (py "a") 0 0] /\
  corrected c (py "abcd") = Some (Some (mkSuggestion (py "a") 0 0)).
Proof. repeat split; vm_compute; reflexivity. Qed.

(** ** Loops *)

Section Folds.
Context {A B : Type} (f : A -> B -> A).

Lemma fold_left_invariant (I : A -> Prop) (l : list B) (a : A) :
  I a ->
  (forall a y, y ∈ l -> I a -> I (f a y)) ->
  I (fold_left f l a).
Proof.
  revert a. induction l as [|y l IH]; intros a Ha Hstep; simpl.
  - exact Ha.
  - apply IH.
    + apply Hstep; [left | exact Ha].
    + intros a' y' Hy'. apply Hstep. right. exact Hy'.
Qed.

(** What a round has put into the accumulator is still there at the
    end, when rounds only extend it in the sense of [R]. *)
Lemma fold_left_reaches (I : A -> Prop) (R : A -> A -> Prop)
    (l : list B) (a : A) (x : B) :
  (forall a, R a a) ->
  (forall a b c, R a b -> R b c -> R a c) ->
  (forall a y, R a (f a y)) ->
  (forall a y, y ∈ l -> I a -> I (f a y)) ->
  x ∈ l -> I a ->
  exists a0, I a0 /\ R (f a0 x) (fold_left f l a).
Proof.
  intros Hrefl Htrans Hmono.
  assert (Hgrow : forall l a, R a (fold_left f l a)).
  { clear -Hrefl Htrans Hmono.
    induction l as [|y l IH]; intros a; simpl; [apply Hrefl|].
    eapply Htrans; [apply Hmono | apply IH]. }
  revert a. induction l as [|y l IH]; intros a Hstep Hx Ha.
  - inversion Hx.
  - apply elem_of_cons in Hx as [->|Hx]; simpl.
    + exists a. split; [exact Ha | apply Hgrow].
    + apply IH; [| exact Hx |].
      * intros a' y' Hy'. apply Hstep. right. exact Hy'.
      * apply Hstep; [left | exact Ha].
Qed.
Lemma fold_left_ext_in (g : A -> B -> A) (l : list B) (a : A) :
  (forall a y, y ∈ l -> f a y = g a y) ->
  fold_left f l a = fold_left g l a.
Proof.
  revert a. induction l as [|y l IH]; intros a Hfg; simpl; [reflexivity|].
  rewrite Hfg by left. apply IH. intros a' y' Hy'. apply Hfg. right. exact Hy'.
Qed.
End Folds.

(** ** Sets of suggestions *)

Lemma set_in_terms (s : Suggestion) (l : list Suggestion) :
  set_in s l = true <-> term s ∈ map term l.
Proof.
  unfold set_in. rewrite existsb_exists. split.
  - intros (x & Hx & He). apply bool_decide_eq_true_1 in He.
    rewrite <- He. apply list_elem_of_fmap_2. apply list_elem_of_In. exact Hx.
  - intros Hin. apply list_elem_of_fmap_1 in Hin as (x & He & Hx).
    exists x. split; [apply list_elem_of_In; exact Hx|].
    apply bool_decide_eq_true_2. symmetry. exact He.
Qed.

Lemma set_in_false (s : Suggestion) (l : list Suggestion) :
  set_in s l = false <-> term s ∉ map term l.
Proof.
  rewrite <- set_in_terms. destruct (set_in s l); split; congruence.
Qed.

Lemma elem_of_set_add (l : list Suggestion) (s x : Suggestion) :
  x ∈ set_add l s -> x ∈ l \/ x = s.
Proof.
  unfold set_add. destruct (set_in s l); [left; assumption|].
  rewrite elem_of_app, list_elem_of_singleton. tauto.
Qed.

Lemma set_add_keeps (l : list Suggestion) (s x : Suggestion) :
  x ∈ l -> x ∈ set_add l s.
Proof.
  unfold set_add. destruct (set_in s l); [tauto|].
  rewrite elem_of_app. tauto.
Qed.

Lemma terms_set_add (l : list Suggestion) (s : Suggestion) (t : str) :
  t ∈ map term (set_add l s) <-> t ∈ map term l \/ t = term s.
Proof.
  unfold set_add. destruct (set_in s l) eqn:Hin.
  - apply set_in_terms in Hin. split; [tauto|]. intros [H| ->]; assumption.
  - rewrite map_app, elem_of_app. simpl. rewrite list_elem_of_singleton. tauto.
Qed.

Lemma NoDup_set_add (l : list Suggestion) (s : Suggestion) :
  NoDup (map term l) -> NoDup (map term (set_add l s)).
Proof.
  intros Hnd. unfold set_add. destruct (set_in s l) eqn:Hin; [exact Hnd|].
  apply set_in_false in Hin. rewrite map_app. simpl.
  apply NoDup_app. split; [exact Hnd|]. split.
  - intros t Ht Hs. apply list_elem_of_singleton in Hs. subst t. tauto.
  - apply NoDup_singleton.
Qed.

Lemma elem_of_set_update (new l : list Suggestion) (x : Suggestion) :
  x ∈ set_update l new -> x ∈ l \/ x ∈ new.
Proof.
  unfold set_update. revert l. induction new as [|s new IH]; intros l; simpl.
  - tauto.
  - intros Hx. apply IH in Hx as [Hx|Hx].
    + apply elem_of_set_add in Hx as [Hx| ->]; [tauto|]. right. left.
    + right. right. exact Hx.
Qed.

Lemma terms_set_update (new l : list Suggestion) (t : str) :
  t ∈ map term (set_update l new) <-> t ∈ map term l \/ t ∈ map term new.
Proof.
  unfold set_update. revert l. induction new as [|s new IH]; intros l; simpl.
  - split; [tauto|]. intros [H|H]; [exact H | inversion H].
  - rewrite IH, terms_set_add, elem_of_cons. tauto.
Qed.

Lemma NoDup_set_update (new l : list Suggestion) :
  NoDup (map term l) -> NoDup (map term (set_update l new)).
Proof.
  unfold set_update. revert l. induction new as [|s new IH]; intros l Hnd; simpl.
  - exact Hnd.
  - apply IH, NoDup_set_add, Hnd.
Qed.

(** ** The deletion generator *)

Lemma remove_at_delete (i : nat) (w : str) : remove_at i w = delete i w.
Proof. unfold remove_at. symmetry. apply delete_take_drop. Qed.

Lemma length_remove_at (i : nat) (w : str) :
  (i < length w)%nat -> length (remove_at i w) = (length w - 1)%nat.
Proof.
  intros Hi. rewrite remove_at_delete. apply length_delete.
  apply lookup_lt_is_Some. exact Hi.
Qed.

Lemma sublist_remove_at (i : nat) (w : str) : remove_at i w `sublist_of` w.
Proof. rewrite remove_at_delete. apply sublist_delete. Qed.

Lemma sublist_same_length (v w : str) :
  v `sublist_of` w -> length v = length w -> v = w.
Proof.
  induction 1 as [|x v w Hs IH|x v w Hs IH]; simpl; intros Hl.
  - reflexivity.
  - f_equal. apply IH. lia.
  - apply sublist_length in Hs. lia.
Qed.

(** A proper subsequence avoids some position. *)
Lemma sublist_remove_one (v w : str) :
  v `sublist_of` w -> (length v < length w)%nat ->
  exists j, (j < length w)%nat /\ v `sublist_of` remove_at j w.
Proof.
  induction 1 as [|x v w Hs IH|x v w Hs IH]; simpl; intros Hl.
  - lia.
  - destruct IH as (j & Hj & Hsub); [lia|].
    exists (S j). split; [lia|]. change (remove_at (S j) (x :: w))
      with (x :: remove_at j w). apply sublist_skip. exact Hsub.
  - exists 0%nat. split; [lia|]. exact Hs.
Qed.

Lemma deletes_to_sublist (i : nat) (w v : str) :
  deletes_to i w v <-> v `sublist_of` w /\ (length v + i = length w)%nat.
Proof.
  split.
  - induction 1 as [w|i j w v Hj Hd [IHs IHl]].
    + split; [reflexivity | lia].
    + split.
      * etransitivity; [exact IHs | apply sublist_remove_at].
      * rewrite length_remove_at in IHl by exact Hj. lia.
  - revert w. induction i as [|i IH]; intros w [Hs Hl].
    + rewrite (sublist_same_length v w Hs) by lia. constructor.
    + destruct (sublist_remove_one v w Hs) as (j & Hj & Hsub); [lia|].
      apply (deletes_one i j); [exact Hj|]. apply IH. split; [exact Hsub|].
      rewrite length_remove_at by exact Hj. lia.
Qed.

Lemma edits_rec_S (len' : nat) (entry : str) (md d : Z) :
  edits_rec (S len') entry md d
  = if (1 <? length entry)%nat
    then fold_left (edits_step len' entry md d) (seq 0 (length entry)) []
    else [].
Proof. reflexivity. Qed.

(** [edits] satisfies the recursive equation of the source: the counter
    of [edits_rec] is the length of the entry at every call. *)
Lemma edits_equation (entry : str) (md d : Z) :
  edits entry md d
  = if (1 <? length entry)%nat then
      fold_left
        (fun deletes i =>
           let modified_entry := remove_at i entry in
           let delete := mkSuggestion modified_entry 0 d in
           if set_in delete deletes then deletes
           else
             let deletes := set_add deletes delete in
             if d <? md
             then set_update deletes (edits modified_entry md (d + 1))
             else deletes)
        (seq 0 (length entry)) []
    else [].
Proof.
  unfold edits at 1. destruct (length entry) as [|len'] eqn:Hlen; [reflexivity|].
  rewrite edits_rec_S, Hlen. destruct (1 <? S len')%nat; [|reflexivity].
  apply fold_left_ext_in. intros acc i Hi. apply elem_of_seq in Hi.
  unfold edits_step, edits. rewrite length_remove_at by lia.
  rewrite Hlen. replace (S len' - 1)%nat with len' by lia. reflexivity.
Qed.

Lemma generated_deeper (w : str) (md d : Z) (i : nat) (s : Suggestion) :
  (i < length w)%nat -> d < md ->
  generated (remove_at i w) md (d + 1) s -> generated w md d s.
Proof.
  intros Hi Hd (Hc & Hs & H1 & Hlt & Hdist & Hb).
  rewrite length_remove_at in * by exact Hi.
  repeat split; try assumption.
  - etransitivity; [exact Hs | apply sublist_remove_at].
  - lia.
  - lia.
  - right. destruct Hb as [Hb|Hb]; lia.
Qed.

Lemma generated_first (w : str) (md d : Z) (i : nat) :
  (1 < length w)%nat -> (i < length w)%nat ->
  generated w md d (mkSuggestion (remove_at i w) 0 d).
Proof.
  intros Hn Hi. unfold generated. simpl.
  rewrite length_remove_at by exact Hi.
  repeat split; try lia. apply sublist_remove_at.
Qed.

Lemma edits_rec_sound (len : nat) :
  forall (w : str) (md d : Z) (s : Suggestion),
    length w = len -> s ∈ edits_rec len w md d -> generated w md d s.
Proof.
  induction len as [|len' IH]; intros w md d s Hlen Hin.
  - inversion Hin.
  - rewrite edits_rec_S in Hin.
    destruct (1 <? length w)%nat eqn:Hn; [|inversion Hin].
    apply Nat.ltb_lt in Hn. revert s Hin.
    apply (fold_left_invariant (edits_step len' w md d)
             (fun acc => forall s, s ∈ acc -> generated w md d s)).
    + intros s Hs. inversion Hs.
    + intros acc i Hi Hacc s. apply elem_of_seq in Hi.
      unfold edits_step. destruct (set_in _ acc); [apply Hacc|].
      destruct (d <? md) eqn:Hd.
      * apply Z.ltb_lt in Hd. intros Hs.
        apply elem_of_set_update in Hs as [Hs|Hs].
        -- apply elem_of_set_add in Hs as [Hs| ->]; [apply Hacc, Hs|].
           apply generated_first; lia.
        -- apply (generated_deeper w md d i); [lia | exact Hd |].
           apply IH; [|exact Hs]. rewrite length_remove_at; lia.
      * intros Hs. apply elem_of_set_add in Hs as [Hs| ->]; [apply Hacc, Hs|].
        apply generated_first; lia.
Qed.

(** Every candidate [suggest] enqueues comes from
    [edits(candidate.term, max_distance=1)] and carries the distance 1,
    however many characters of the query are gone. *)
Lemma edits_one_distance (t : str) (s : Suggestion) :
  s ∈ edits t 1 1 -> distance s = 1 /\ (length (term s) + 1 = length t)%nat.
Proof.
  intros Hs. apply edits_rec_sound in Hs; [|reflexivity].
  destruct Hs as (_ & _ & _ & Hlt & Hd & Hb). lia.
Qed.

Lemma edits_rec_NoDup (len : nat) (w : str) (md d : Z) :
  NoDup (map term (edits_rec len w md d)).
Proof.
  destruct len as [|len']; [constructor|].
  rewrite edits_rec_S. destruct (1 <? length w)%nat; [|constructor].
  apply (fold_left_invariant (edits_step len' w md d)
           (fun acc => NoDup (map term acc))).
  - constructor.
  - intros acc i _ Hacc. unfold edits_step.
    destruct (set_in _ acc); [exact Hacc|].
    destruct (d <? md).
    + apply NoDup_set_update, NoDup_set_add, Hacc.
    + apply NoDup_set_add, Hacc.
Qed.

Lemma edits_step_grows (len' : nat) (w : str) (md d : Z)
    (acc : list Suggestion) (i : nat) :
  terms_within acc (edits_step len' w md d acc i).
Proof.
  intros t Ht. unfold edits_step. destruct (set_in _ acc); [exact Ht|].
  destruct (d <? md).
  - apply terms_set_update. left. apply terms_set_add. left. exact Ht.
  - apply terms_set_add. left. exact Ht.
Qed.

Lemma edits_step_expanded (len' : nat) (w : str) (md d : Z)
    (acc : list Suggestion) (i : nat) :
  length w = S len' -> (i < length w)%nat ->
  expanded len' w md d acc ->
  expanded len' w md d (edits_step len' w md d acc i).
Proof.
  intros Hlen Hi Hacc m t. unfold edits_step.
  destruct (set_in _ acc); [apply Hacc|].
  destruct (d <? md) eqn:Hd; [|intros _ _ Hlt; apply Z.ltb_ge in Hd; lia].
  rewrite !terms_set_update, !terms_set_add. simpl.
  intros [[Hm| ->]|Hm] Hl Hlt Ht.
  - left. left. apply (Hacc m t); assumption.
  - right. exact Ht.
  - apply list_elem_of_fmap_1 in Hm as (s & -> & Hs).
    apply edits_rec_sound in Hs as (_ & _ & _ & Hshort & _).
    + rewrite length_remove_at in Hshort by exact Hi. lia.
    + rewrite length_remove_at by exact Hi. lia.
Qed.

Lemma edits_step_adds (len' : nat) (w : str) (md d : Z)
    (acc : list Suggestion) (i : nat) :
  (i < length w)%nat ->
  expanded len' w md d acc ->
  remove_at i w ∈ map term (edits_step len' w md d acc i) /\
  (d < md ->
   forall t, t ∈ map term (edits_rec len' (remove_at i w) md (d + 1)) ->
             t ∈ map term (edits_step len' w md d acc i)).
Proof.
  intros Hi Hacc. unfold edits_step.
  destruct (set_in _ acc) eqn:Hin.
  - apply set_in_terms in Hin. simpl in Hin. split; [exact Hin|].
    intros Hd t Ht. apply (Hacc (remove_at i w) t); try assumption.
    apply length_remove_at, Hi.
  - destruct (d <? md) eqn:Hd.
    + split.
      * apply terms_set_update. left. apply terms_set_add. right. reflexivity.
      * intros _ t Ht. apply terms_set_update. right. exact Ht.
    + split; [apply terms_set_add; right; reflexivity|].
      intros Hlt. apply Z.ltb_ge in Hd. lia.
Qed.

Lemma edits_rec_complete (len : nat) :
  forall (w : str) (md d : Z) (v : str),
    length w = len ->
    v `sublist_of` w ->
    (1 <= length v)%nat -> (length v < length w)%nat ->
    ((length w - length v <= 1)%nat
     \/ d + Z.of_nat (length w - length v) - 1 <= md) ->
    v ∈ map term (edits_rec len w md d).
Proof.
  induction len as [|len' IH]; intros w md d v Hlen Hsub H1 Hlt Hb; [lia|].
  rewrite edits_rec_S.
  replace (1 <? length w)%nat with true by (symmetry; apply Nat.ltb_lt; lia).
  destruct (sublist_remove_one v w Hsub Hlt) as (j & Hj & Hsubj).
  destruct (fold_left_reaches (edits_step len' w md d)
              (expanded len' w md d) terms_within
              (seq 0 (length w)) [] j) as (acc & Hacc & Hreach).
  - intros a t Ht. exact Ht.
  - intros a b c Hab Hbc t Ht. apply Hbc, Hab, Ht.
  - intros a y. apply edits_step_grows.
  - intros a y Hy. apply elem_of_seq in Hy.
    apply edits_step_expanded; [exact Hlen | lia].
  - apply elem_of_seq. lia.
  - intros m t Hm. inversion Hm.
  - apply Hreach.
    destruct (edits_step_adds len' w md d acc j Hj Hacc) as [Hfirst Hrec].
    assert (Hlj := length_remove_at j w Hj).
    destruct (decide (length v = length (remove_at j w))) as [He|Hne].
    + rewrite (sublist_same_length v _ Hsubj He). exact Hfirst.
    + apply sublist_length in Hsubj as Hle.
      apply Hrec; [lia|]. apply IH; try lia. exact Hsubj.
Qed.

(** C6 (as stated, refuted). Deleting both characters of "ab" gives the
    empty string, which [edits("ab", 2)] does not return. *)
Lemma C6_empty_string_missing : ~ exactly_the_deletions (py "ab") 2.
Proof.
  intros H. specialize (H []). destruct H as [_ H].
  assert (Hin : [] ∈ map term (edits (py "ab") 2 1)).
  { apply H. exists 2%nat. split; [lia|]. split; [lia|].
    apply (deletes_one 1 0); [simpl; lia|].
    apply (deletes_one 0 0); [simpl; lia|]. constructor. }
  apply list_elem_of_In in Hin. vm_compute in Hin.
  destruct Hin as [Hin|[Hin|[]]]; discriminate Hin.
Qed.

Lemma deletes_to_count (i j : nat) (w v : str) :
  deletes_to i w v -> deletes_to j w v -> i = j.
Proof.
  rewrite !deletes_to_sublist. intros [_ Hi] [_ Hj]. lia.
Qed.

(** C6 (amended). For [k >= 1], [edits(w, k)] returns exactly the
    non-empty strings obtained from [w] by deleting [i] characters for
    some [1 <= i <= k], each once, with count 0 and with [i] as its
    distance; [i] is determined by the variant; a word of length at most
    1 has no deletions. *)
Theorem C6_edits_nonempty_deletions (w : str) (k : Z) :
  1 <= k ->
  NoDup (map term (edits w k 1)) /\
  (forall s : Suggestion,
      s ∈ edits w k 1
      <-> count s = 0 /\ term s <> [] /\
          exists i : nat, (1 <= i)%nat /\ Z.of_nat i <= k /\
                          distance s = Z.of_nat i /\ deletes_to i w (term s)) /\
  (forall (i j : nat) (v : str),
      deletes_to i w v -> deletes_to j w v -> i = j) /\
  ((length w <= 1)%nat -> edits w k 1 = []).
Proof.
  intros Hk. split; [apply edits_rec_NoDup|]. split; [|split].
  - intros s. split.
    + intros Hs. apply edits_rec_sound in Hs; [|reflexivity].
      destruct Hs as (Hc & Hsub & H1 & Hlt & Hd & Hb).
      split; [exact Hc|]. split; [destruct (term s); [simpl in H1; lia | discriminate]|].
      exists (length w - length (term s))%nat.
      split; [lia|]. split; [lia|]. split; [lia|].
      apply deletes_to_sublist. split; [exact Hsub | lia].
    + intros (Hc & Hne & i & Hi & Hik & Hd & Hdel).
      apply deletes_to_sublist in Hdel as [Hsub Hlen].
      assert (Hin : term s ∈ map term (edits w k 1)).
      { apply (edits_rec_complete (length w) w k 1 (term s) eq_refl Hsub).
        - destruct (term s); [congruence | simpl; lia].
        - lia.
        - right. lia. }
      apply list_elem_of_fmap_1 in Hin as (s' & Ht & Hs').
      apply edits_rec_sound in Hs' as Hg; [|reflexivity].
      destruct Hg as (Hc' & _ & _ & _ & Hd' & _).
      replace s with s'; [exact Hs'|].
      destruct s as [t c d], s' as [t' c' d']; simpl in *. subst.
      f_equal. lia.
  - intros i j v. apply deletes_to_count.
  - intros Hl. unfold edits. destruct w as [|a [|b w]]; simpl in *; [reflexivity..|lia].
Qed.

(** C6 at the word "abc" and [k = 2], the example of the docstring. *)
Lemma C6_witness_abc :
  1 <= 2 /\ NoDup (map term (edits (py "abc") 2 1)).
Proof.
  split; [lia|].
  exact (proj1 (C6_edits_nonempty_deletions (py "abc") 2 ltac:(lia))).
Defined.

(** ** Termination of the search *)

Lemma weight_pos (n : nat) : (1 <= weight n)%nat.
Proof. destruct n; simpl; lia. Qed.

Lemma weight_mono (n m : nat) : (n <= m)%nat -> (weight n <= weight m)%nat.
Proof.
  induction 1 as [|m Hle IH]; [lia|].
  change (weight (S m)) with (1 + S m * weight m)%nat. nia.
Qed.

Lemma queue_weight_app (q1 q2 : list Suggestion) :
  queue_weight (q1 ++ q2) = (queue_weight q1 + queue_weight q2)%nat.
Proof. induction q1 as [|x q1 IH]; simpl; [reflexivity | lia]. Qed.

Lemma queue_weight_set_add (q : list Suggestion) (s : Suggestion) :
  (queue_weight (set_add q s) <= queue_weight q + weight (length (term s)))%nat.
Proof.
  unfold set_add. destruct (set_in s q); [lia|].
  rewrite queue_weight_app. simpl. lia.
Qed.

Lemma enqueue_weight (es q sn : list Suggestion) :
  (queue_weight (fst (fold_left enqueue es (q, sn)))
   <= queue_weight q + queue_weight es)%nat.
Proof.
  revert q sn. induction es as [|e es IH]; intros q sn; simpl; [lia|].
  destruct (set_in e sn).
  - specialize (IH q sn). lia.
  - specialize (IH (q ++ [e]) (set_add sn e)).
    rewrite queue_weight_app in IH. simpl in IH. lia.
Qed.

(** The deletions of one character are at most [len(t)], each one
    character shorter. *)
Lemma edits_one_weight (t : str) :
  (queue_weight (edits t 1 1) <= length t * weight (length t - 1))%nat.
Proof.
  unfold edits. destruct (length t) as [|len'] eqn:Hlen; [simpl; lia|].
  rewrite edits_rec_S. destruct (1 <? length t)%nat; [|simpl; lia].
  rewrite Hlen.
  assert (Hfold : forall l acc,
    (forall i, i ∈ l -> (i < length t)%nat) ->
    (queue_weight (fold_left (edits_step len' t 1 1) l acc)
     <= queue_weight acc + length l * weight (length t - 1))%nat).
  { induction l as [|i l IH]; intros acc Hl; simpl; [lia|].
    assert (Hi : (i < length t)%nat) by (apply Hl; left).
    etransitivity; [apply IH; intros j Hj; apply Hl; right; exact Hj|].
    unfold edits_step at 1. destruct (set_in _ acc) eqn:Hin; [lia|].
    change (1 <? 1) with false. cbv iota.
    unfold set_add. rewrite Hin. rewrite queue_weight_app. simpl.
    rewrite length_remove_at by exact Hi. lia. }
  specialize (Hfold (seq 0 (S len')) []). rewrite length_seq in Hfold.
  simpl queue_weight in Hfold. rewrite Hlen in Hfold.
  etransitivity; [apply Hfold|].
  - intros i Hi. apply elem_of_seq in Hi. lia.
  - simpl. lia.
Qed.

Lemma candidates_round (c : Corrector) (word : str) (candidate : Suggestion)
    (rest : list Suggestion) (st : Search) :
  candidates (round c word candidate rest st)
  = if distance candidate <? max_distance c
    then fst (fold_left enqueue (edits (term candidate) 1 1) (rest, seen st))
    else rest.
Proof.
  unfold round. destruct (defaultdict_get _ _ _) as [l idx].
  destruct (distance candidate <? max_distance c); [|reflexivity].
  destruct (fold_left enqueue _ _). reflexivity.
Qed.

(** Every round lowers the measure. *)
Lemma round_weight (c : Corrector) (word : str) (candidate : Suggestion)
    (rest : list Suggestion) (st : Search) :
  (queue_weight (candidates (round c word candidate rest st))
   < queue_weight (candidate :: rest))%nat.
Proof.
  rewrite candidates_round. simpl.
  pose proof (weight_pos (length (term candidate))) as Hpos.
  destruct (distance candidate <? max_distance c); [|lia].
  pose proof (enqueue_weight (edits (term candidate) 1 1) rest (seen st)) as He.
  pose proof (edits_one_weight (term candidate)) as Hw.
  destruct (length (term candidate)) as [|n] eqn:Hn; [simpl in *; lia|].
  change (weight (S n)) with (1 + S n * weight n)%nat.
  replace (S n - 1)%nat with n in Hw by lia. lia.
Qed.

Lemma search_total (rounds : nat) (c : Corrector) (word : str) :
  forall st : Search,
    (queue_weight (candidates st) <= rounds)%nat ->
    exists st', search rounds c word st = Some st'.
Proof.
  induction rounds as [|rounds IH]; intros st Hw.
  - destruct st as [f [|x q] sn idx]; simpl in *.
    + eexists. reflexivity.
    + pose proof (weight_pos (length (term x))). lia.
  - destruct (candidates st) as [|x q] eqn:Hq.
    + exists st. simpl. rewrite Hq. reflexivity.
    + simpl. rewrite Hq. apply IH.
      pose proof (round_weight c word x q st) as Hr. lia.
Qed.

Lemma search_invariant (I : Search -> Prop) (c : Corrector) (word : str) :
  (forall candidate rest st,
      candidates st = candidate :: rest -> I st ->
      I (round c word candidate rest st)) ->
  forall rounds st st',
    I st -> search rounds c word st = Some st' -> I st'.
Proof.
  intros Hround. induction rounds as [|rounds IH]; intros st st' Hst Hs;
    simpl in Hs; destruct (candidates st) as [|x q] eqn:Hq;
    try (injection Hs as <-; exact Hst); [discriminate|].
  eapply IH; [|exact Hs]. apply Hround; assumption.
Qed.

(** [suggest] and [correct] return on every corrector and every word. *)
Lemma suggest_total (c : Corrector) (word : str) :
  exists r c', suggest c word = Some (r, c').
Proof.
  unfold suggest.
  destruct (search_total (weight (length word)) c word
              (mkSearch [] [mkSuggestion word 1 0] [mkSuggestion word 1 0]
                        (suggestions c))) as [st Hst].
  - simpl. lia.
  - rewrite Hst. eauto.
Qed.

Lemma correct_total (c : Corrector) (word : str) :
  exists r c', correct c word = Some (r, c').
Proof.
  unfold correct. destruct (suggest_total c word) as (r & c' & Hs).
  rewrite Hs. eauto.
Qed.

(** ** What a query does to the index *)

Lemma index_extends_refl (a : gmap str (list Suggestion)) : index_extends a a.
Proof. intros k. left. reflexivity. Qed.

Lemma index_extends_trans (a b c : gmap str (list Suggestion)) :
  index_extends a b -> index_extends b c -> index_extends a c.
Proof.
  intros Hab Hbc k. destruct (Hbc k) as [Hc|[Hb Hc]], (Hab k) as [Hb'|[Ha Hb']].
  - left. congruence.
  - right. split; congruence.
  - right. split; congruence.
  - congruence.
Qed.

Lemma from_index_extends (a b : gmap str (list Suggestion)) (s : Suggestion) :
  index_extends a b -> from_index b s -> from_index a s.
Proof.
  intros Hab (k & l & Hk & Hs). destruct (Hab k) as [Hb|[_ Hb]].
  - exists k, l. split; [congruence | exact Hs].
  - rewrite Hb in Hk. injection Hk as <-. inversion Hs.
Qed.

Lemma defaultdict_get_list (idx : gmap str (list Suggestion)) (k : str) :
  fst (defaultdict_get idx k []) = default [] (idx !! k) /\
  index_extends idx (snd (defaultdict_get idx k [])) /\
  snd (defaultdict_get idx k []) !! k = Some (default [] (idx !! k)).
Proof.
  unfold defaultdict_get. destruct (idx !! k) as [l|] eqn:Hk; simpl.
  - split; [reflexivity|]. split; [apply index_extends_refl | exact Hk].
  - split; [reflexivity|]. split; [|apply lookup_insert_eq].
    intros k'. destruct (decide (k = k')) as [<-|Hne].
    + right. split; [exact Hk | apply lookup_insert_eq].
    + left. apply lookup_insert_ne. exact Hne.
Qed.

Lemma elem_of_consider (c : Corrector) (word : str) (candidate : Suggestion)
    (acc : list Suggestion) (cs x : Suggestion) :
  x ∈ consider c word candidate acc cs -> x ∈ acc \/ x = cs.
Proof.
  unfold consider. destruct (Qle_bool _ _); [|tauto].
  destruct acc as [|some acc]; [apply elem_of_set_add|].
  destruct (negb _); [|apply elem_of_set_add].
  destruct (Qlt_bool _ _); [tauto|].
  destruct (Qlt_bool _ _); [|apply elem_of_set_add].
  intros Hx. apply elem_of_set_add in Hx as [Hx|Hx]; [inversion Hx | tauto].
Qed.

Lemma elem_of_fold_consider (c : Corrector) (word : str) (candidate : Suggestion)
    (l acc : list Suggestion) (x : Suggestion) :
  x ∈ fold_left (consider c word candidate) l acc -> x ∈ acc \/ x ∈ l.
Proof.
  revert acc. induction l as [|cs l IH]; intros acc; simpl; [tauto|].
  intros Hx. apply IH in Hx as [Hx|Hx].
  - apply elem_of_consider in Hx as [Hx| ->]; [tauto|]. right. left.
  - right. right. exact Hx.
Qed.

Lemma found_round (c : Corrector) (word : str) (candidate : Suggestion)
    (rest : list Suggestion) (st : Search) :
  found (round c word candidate rest st)
  = fold_left (consider c word candidate)
              (fst (defaultdict_get (index st) (term candidate) [])) (found st).
Proof.
  unfold round. destruct (defaultdict_get _ _ _) as [l idx]. simpl.
  destruct (distance candidate <? max_distance c); [|reflexivity].
  destruct (fold_left enqueue _ _). reflexivity.
Qed.

Lemma index_round (c : Corrector) (word : str) (candidate : Suggestion)
    (rest : list Suggestion) (st : Search) :
  index (round c word candidate rest st)
  = snd (defaultdict_get (index st) (term candidate) []).
Proof.
  unfold round. destruct (defaultdict_get _ _ _) as [l idx]. simpl.
  destruct (distance candidate <? max_distance c); [|reflexivity].
  destruct (fold_left enqueue _ _). reflexivity.
Qed.

Lemma round_keeps (idx0 : gmap str (list Suggestion)) (c : Corrector)
    (word : str) (candidate : Suggestion) (rest : list Suggestion) (st : Search) :
  search_keeps idx0 st -> search_keeps idx0 (round c word candidate rest st).
Proof.
  intros [Hext Hfound].
  destruct (defaultdict_get_list (index st) (term candidate)) as (Hl & He & _).
  split.
  - rewrite index_round. eapply index_extends_trans; [exact Hext | exact He].
  - intros s. rewrite found_round, Hl. intros Hs.
    apply elem_of_fold_consider in Hs as [Hs|Hs]; [apply Hfound, Hs|].
    apply (from_index_extends idx0 (index st)); [exact Hext|].
    destruct (index st !! term candidate) as [l|] eqn:Hk; [|inversion Hs].
    exists (term candidate), l. split; assumption.
Qed.

Lemma search_result (rounds : nat) (c : Corrector) (word : str) (st st' : Search) :
  search_keeps (suggestions c) st ->
  search rounds c word st = Some st' ->
  search_keeps (suggestions c) st'.
Proof.
  apply (search_invariant (search_keeps (suggestions c))).
  intros candidate rest st0 _. apply round_keeps.
Qed.

(** The shape of every result of [suggest]. *)
Lemma suggest_result (c : Corrector) (word : str) :
  exists st : Search,
    suggest c word = Some (sorted (found st), with_index c (index st)) /\
    search_keeps (suggestions c) st.
Proof.
  destruct (suggest_total c word) as (r & c' & Hs). unfold suggest in *.
  destruct (search _ c word _) as [st|] eqn:Hsearch; [|discriminate].
  exists st. split; [reflexivity|].
  apply (search_result _ c word _ st) in Hsearch; [exact Hsearch|].
  split; [apply index_extends_refl|]. intros s Hin. inversion Hin.
Qed.

(** ** Sorting *)

Lemma insert_by_key_perm (s : Suggestion) (l : list Suggestion) :
  insert_by_key s l ≡ₚ s :: l.
Proof.
  induction l as [|h t IH]; simpl; [reflexivity|].
  destruct (key_ltb s h); [reflexivity|].
  rewrite IH. apply Permutation_swap.
Qed.

Lemma sorted_perm (l : list Suggestion) : sorted l ≡ₚ l.
Proof.
  unfold sorted.
  assert (H : forall acc, fold_left (fun acc s => insert_by_key s acc) l acc ≡ₚ l ++ acc).
  { induction l as [|s l IH]; intros acc; simpl; [reflexivity|].
    rewrite IH, insert_by_key_perm. symmetry. apply Permutation_middle. }
  rewrite H, app_nil_r. reflexivity.
Qed.

Lemma key_ltb_true (a b : Suggestion) : key_ltb a b = true -> key_le a b.
Proof. unfold key_ltb, key_le. lia. Qed.

Lemma key_ltb_false (a b : Suggestion) : key_ltb a b = false -> key_le b a.
Proof. unfold key_ltb, key_le. lia. Qed.

Lemma insert_by_key_hd (h s : Suggestion) (t : list Suggestion) :
  HdRel key_le h t -> key_le h s -> HdRel key_le h (insert_by_key s t).
Proof.
  intros Ht Hs. destruct t as [|h' t]; simpl; [constructor; exact Hs|].
  destruct (key_ltb s h'); constructor; [exact Hs|].
  inversion Ht; assumption.
Qed.

Lemma insert_by_key_sorted (s : Suggestion) (l : list Suggestion) :
  Sorted key_le l -> Sorted key_le (insert_by_key s l).
Proof.
  induction l as [|h t IH]; intros Hl; simpl.
  - repeat constructor.
  - destruct (key_ltb s h) eqn:Hk.
    + constructor; [exact Hl|]. constructor. apply key_ltb_true, Hk.
    + apply Sorted_inv in Hl as [Ht Hh]. constructor; [apply IH, Ht|].
      apply insert_by_key_hd; [exact Hh | apply key_ltb_false, Hk].
Qed.

Lemma sorted_sorted (l : list Suggestion) : Sorted key_le (sorted l).
Proof.
  unfold sorted.
  apply (fold_left_invariant (fun acc s => insert_by_key s acc) (Sorted key_le)).
  - constructor.
  - intros acc s _. apply insert_by_key_sorted.
Qed.

Lemma key_le_trans : Transitive key_le.
Proof. intros a b c. unfold key_le. lia. Qed.

(** ** Queries and the index *)



(** ** The order of the results *)

(** C2 (as stated, refuted). With "hel" added twice, [suggest("help")]
    returns "hel" with distance 0 and count 0; the metric puts "hel" at 1
    from "help", and its frequency is 2. *)
Lemma C2_distance_and_count_are_stored :
  ~ ranked_by_metric_and_frequency
      (index_of (Faroo 2 false) [py "hel"; py "hel"]) (py "help").
Proof.
  intros H. specialize (H [mkSuggestion (py "hel") 0 0]).
  destruct H as [_ H]; [vm_compute; reflexivity|].
  destruct (H (mkSuggestion (py "hel") 0 0)) as [Hq _]; [left|].
  vm_compute in Hq. discriminate Hq.
Qed.

(** C2 (amended). [suggest] returns its accepted suggestions, all of
    them and each once (the list is a rearrangement of the set the loop
    has collected), in ascending order of the pair (distance, count) they
    carry, and each of them is a suggestion of the index as it is stored
    there: its distance is the deletion distance recorded by
    [add_entry]. *)
Theorem C2_sorted_by_stored_key (c : Corrector) (word : str) :
  exists (r acc : list Suggestion) (c' : Corrector),
    suggest c word = Some (r, c') /\
    accepted c word = Some acc /\
    r ≡ₚ acc /\
    StronglySorted key_le r /\
    forall s : Suggestion, s ∈ r -> from_index (suggestions c) s.
Proof.
  destruct (suggest_total c word) as (r & c' & Hs). unfold suggest in Hs.
  cbv zeta in Hs.
  destruct (search _ c word _) as [st|] eqn:Hsearch; [|discriminate Hs].
  exists (sorted (found st)), (found st), (with_index c (index st)).
  split; [unfold suggest; cbv zeta; rewrite Hsearch; reflexivity|].
  split; [unfold accepted; cbv zeta; rewrite Hsearch; reflexivity|].
  split; [apply sorted_perm|]. split.
  - apply Sorted_StronglySorted; [apply key_le_trans | apply sorted_sorted].
  - apply (search_result _ c word _ st) in Hsearch.
    + destruct Hsearch as [_ Hfound]. intros s Hin. apply Hfound.
      rewrite <- (sorted_perm (found st)). exact Hin.
    + split; [apply index_extends_refl|]. intros s Hin. inversion Hin.
Qed.

(** ** Counts of the indexed suggestions *)

Lemma elem_of_keep_lowest_distance (keep_all : bool) (l : list Suggestion)
    (s x : Suggestion) :
  x ∈ keep_lowest_distance keep_all l s -> x ∈ l \/ x = s.
Proof.
  unfold keep_lowest_distance.
  set (l1 := match l with [] => l | _ => _ end).
  assert (Hl1 : forall y, y ∈ l1 -> y ∈ l).
  { subst l1. destruct l as [|h t]; [tauto|].
    destruct (negb keep_all && _); [intros y Hy; inversion Hy | tauto]. }
  destruct (keep_all || _).
  - rewrite elem_of_app, list_elem_of_singleton. intros [Hx|Hx]; [left; apply Hl1, Hx | tauto].
  - intros Hx. left. apply Hl1, Hx.
Qed.

Lemma counts_zero_extends (a b : gmap str (list Suggestion)) :
  index_extends a b -> counts_zero a -> counts_zero b.
Proof.
  intros Hab Ha k l s Hk Hs. destruct (Hab k) as [Hb|[_ Hb]].
  - apply (Ha k l s); [congruence | exact Hs].
  - rewrite Hb in Hk. injection Hk as <-. inversion Hs.
Qed.

Lemma index_delete_counts (keep_all : bool) (entry : str)
    (sugg : gmap str (list Suggestion)) (delete : Suggestion) :
  counts_zero sugg -> counts_zero (index_delete keep_all entry sugg delete).
Proof.
  intros Hz. unfold index_delete.
  destruct (defaultdict_get_list sugg (term delete)) as (Hl & Hext & _).
  destruct (defaultdict_get sugg (term delete) []) as [l sugg'].
  simpl in Hl, Hext. subst l.
  intros k l s Hk Hs. destruct (decide (term delete = k)) as [<-|Hne].
  - rewrite lookup_insert_eq in Hk. injection Hk as <-.
    apply elem_of_keep_lowest_distance in Hs as [Hs| ->]; [|reflexivity].
    destruct (sugg !! term delete) as [l0|] eqn:Hl0; [|inversion Hs].
    apply (Hz _ _ _ Hl0 Hs).
  - rewrite lookup_insert_ne in Hk by exact Hne.
    apply (counts_zero_extends sugg sugg' Hext Hz k l s Hk Hs).
Qed.

Lemma add_entry_counts (c : Corrector) (entry : str) :
  counts_zero (suggestions c) ->
  counts_zero (suggestions (snd (add_entry c entry))).
Proof.
  intros Hz. unfold add_entry.
  destruct (defaultdict_get (dictionary c) entry None) as [[t|] dict]; simpl;
    [exact Hz|].
  apply (fold_left_invariant (index_delete (keep_all_suggestions c) entry)
           counts_zero).
  - intros k l s Hk Hs. destruct (decide (entry = k)) as [<-|Hne].
    + rewrite lookup_insert_eq in Hk. injection Hk as <-.
      apply list_elem_of_singleton in Hs. subst s. reflexivity.
    + rewrite lookup_insert_ne in Hk by exact Hne. apply (Hz _ _ _ Hk Hs).
  - intros sugg delete _. apply index_delete_counts.
Qed.

Lemma suggest_counts (c : Corrector) (word : str) (r : list Suggestion)
    (c' : Corrector) :
  counts_zero (suggestions c) -> suggest c word = Some (r, c') ->
  counts_zero (suggestions c').
Proof.
  intros Hz Hs. destruct (suggest_result c word) as (st & Hs' & Hext & _).
  rewrite Hs in Hs'. injection Hs' as _ ->. simpl.
  apply (counts_zero_extends _ _ Hext Hz).
Qed.

(** C10. In every reachable corrector each suggestion of the index has
    count 0, and so has each suggestion [suggest] returns: the second
    component of its sort key is 0. *)
Theorem C10_suggestion_counts_are_zero (c : Corrector) :
  reachable c ->
  counts_zero (suggestions c) /\
  forall word : str,
    exists (r : list Suggestion) (c' : Corrector),
      suggest c word = Some (r, c') /\
      forall s : Suggestion, s ∈ r -> count s = 0 /\ key s = (distance s, 0).
Proof.
  intros Hreach.
  assert (Hz : counts_zero (suggestions c)).
  { induction Hreach as [md ka m|c entry _ IH|c word r c' _ IH Hs|c word r c' _ IH Hc].
    - intros k l s Hk. simpl in Hk. rewrite lookup_empty in Hk. discriminate Hk.
    - apply add_entry_counts, IH.
    - apply (suggest_counts c word r c' IH Hs).
    - unfold correct in Hc. destruct (suggest c word) as [[r' c'']|] eqn:Hs;
        [|discriminate Hc].
      injection Hc as _ <-. apply (suggest_counts c word r' c'' IH Hs). }
  split; [exact Hz|]. intros word.
  destruct (suggest_result c word) as (st & Hs & _ & Hfound).
  exists (sorted (found st)), (with_index c (index st)).
  split; [exact Hs|]. intros s Hin.
  rewrite (sorted_perm (found st)) in Hin.
  destruct (Hfound s Hin) as (k & l & Hk & Hl).
  pose proof (Hz k l s Hk Hl) as Hc.
  split; [exact Hc|]. unfold key. rewrite Hc. reflexivity.
Qed.

(** C10 at the corrector that holds the one word "hello". *)
Lemma C10_witness_hello :
  reachable (snd (add_entry (Faroo 2 false) hello)) /\
  counts_zero (suggestions (snd (add_entry (Faroo 2 false) hello))).
Proof.
  split; [apply reach_add_entry, reach_new|].
  apply C10_suggestion_counts_are_zero. apply reach_add_entry, reach_new.
Defined.

(** ** The index that keeps the lowest distance *)






Lemma index_delete_lookup (keep_all : bool) (w : str)
    (sugg : gmap str (list Suggestion)) (s : Suggestion) (v : str) :
  default [] (index_delete keep_all w sugg s !! v)
  = if str_eqb (term s) v
    then keep_lowest_distance keep_all (default [] (sugg !! v))
                              (mkSuggestion w 0 (distance s))
    else default [] (sugg !! v).
Proof.
  unfold index_delete.
  destruct (defaultdict_get_list sugg (term s)) as (Hl & Hext & _).
  destruct (defaultdict_get sugg (term s) []) as [l sugg'].
  simpl in Hl, Hext. subst l. unfold str_eqb. case_bool_decide as Hv.
  - subst v. rewrite lookup_insert_eq. reflexivity.
  - rewrite lookup_insert_ne by exact Hv.
    destruct (Hext v) as [->|[-> ->]]; reflexivity.
Qed.

Lemma find_term_none (v : str) (l : list Suggestion) :
  v ∉ map term l -> find (fun s => str_eqb (term s) v) l = None.
Proof.
  induction l as [|s l IH]; intros Hv; simpl; [reflexivity|].
  unfold str_eqb at 1. case_bool_decide as He.
  - exfalso. apply Hv. simpl. rewrite He. left.
  - apply IH. intros Hin. apply Hv. simpl. right. exact Hin.
Qed.

(** The loop [for delete in deletes] visits every key once. *)
Lemma fold_index_delete_lookup (keep_all : bool) (w : str)
    (deletes : list Suggestion) :
  forall (sugg : gmap str (list Suggestion)) (v : str),
    NoDup (map term deletes) ->
    default [] (fold_left (index_delete keep_all w) deletes sugg !! v)
    = match find (fun s => str_eqb (term s) v) deletes with
      | Some s => keep_lowest_distance keep_all (default [] (sugg !! v))
                                       (mkSuggestion w 0 (distance s))
      | None => default [] (sugg !! v)
      end.
Proof.
  induction deletes as [|s deletes IH]; intros sugg v Hnd; simpl; [reflexivity|].
  simpl in Hnd. apply NoDup_cons in Hnd as [Hs Hnd].
  rewrite IH by exact Hnd. rewrite index_delete_lookup.
  destruct (str_eqb (term s) v) eqn:He.
  - apply bool_decide_eq_true_1 in He. subst v.
    rewrite find_term_none by exact Hs. reflexivity.
  - reflexivity.
Qed.

Lemma find_term_perm (ds ds' : list Suggestion) (v : str) :
  ds ≡ₚ ds' -> NoDup (map term ds) ->
  find (fun s => str_eqb (term s) v) ds = find (fun s => str_eqb (term s) v) ds'.
Proof.
  induction 1 as [|x l l' Hp IH|x y l|l l' l'' Hp IH Hp' IH']; intros Hnd.
  - reflexivity.
  - simpl in *. apply NoDup_cons in Hnd as [_ Hnd]. rewrite IH by exact Hnd.
    reflexivity.
  - simpl in *. apply NoDup_cons in Hnd as [Hy _].
    destruct (str_eqb (term x) v) eqn:Hx, (str_eqb (term y) v) eqn:Hy';
      try reflexivity.
    apply bool_decide_eq_true_1 in Hx, Hy'. exfalso. apply Hy.
    rewrite Hy', <- Hx. left.
  - rewrite IH by exact Hnd. apply IH'.
    rewrite <- (fmap_Permutation term _ _ Hp). exact Hnd.
Qed.

(** The order in which the set [deletes] is enumerated by [add_entry]
    does not show in the index. *)
Lemma index_order_irrelevant (keep_all : bool) (w : str)
    (ds ds' : list Suggestion) (sugg : gmap str (list Suggestion)) (v : str) :
  ds ≡ₚ ds' -> NoDup (map term ds) ->
  default [] (fold_left (index_delete keep_all w) ds sugg !! v)
  = default [] (fold_left (index_delete keep_all w) ds' sugg !! v).
Proof.
  intros Hp Hnd. rewrite !fold_index_delete_lookup.
  - rewrite (find_term_perm ds ds' v Hp Hnd). reflexivity.
  - rewrite <- (fmap_Permutation term _ _ Hp). exact Hnd.
  - exact Hnd.
Qed.



Lemma edits_not_self (w : str) (md : Z) :
  find (fun s => str_eqb (term s) w) (edits w md 1) = None.
Proof.
  apply find_term_none. intros Hin.
  apply list_elem_of_fmap_1 in Hin as (s & Ht & Hs).
  apply edits_rec_sound in Hs; [|reflexivity].
  destruct Hs as (_ & _ & _ & Hlt & _). rewrite <- Ht in Hlt. lia.
Qed.


Lemma index_of_cons (c : Corrector) (w : str) (corpus : list str) :
  index_of c (w :: corpus) = index_of (snd (add_entry c w)) corpus.
Proof.
  unfold index_of, add_corpus. simpl.
  destruct (add_entry c w) as [is_new c1]. simpl.
  generalize (if is_new then 0 + 1 else 0) as n. generalize 0 as n0.
  revert c1. induction corpus as [|w' corpus IH]; intros c1 n0 n; simpl;
    [reflexivity|].
  destruct (add_entry c1 w') as [is_new' c2]. apply IH.
Qed.




(** ** What is recorded and what produces *)

Lemma elem_of_first_occurrences (w : str) (corpus : list str) :
  w ∈ first_occurrences corpus <-> w ∈ corpus.
Proof.
  unfold first_occurrences.
  assert (H : forall seen,
    w ∈ fold_left (fun seen w => if decide (w ∈ seen) then seen else seen ++ [w])
                  corpus seen
    <-> w ∈ seen \/ w ∈ corpus).
  { induction corpus as [|x corpus IH]; intros seen; simpl.
    - split; [tauto|]. intros [H|H]; [exact H | inversion H].
    - rewrite IH, elem_of_cons. destruct (decide (x ∈ seen)) as [Hx|Hx].
      + split; [tauto|]. intros [H|[->|H]]; tauto.
      + rewrite elem_of_app, list_elem_of_singleton. tauto. }
  rewrite H. split; [intros [Hn|Hc]; [inversion Hn | exact Hc] | tauto].
Qed.

Lemma NoDup_first_occurrences (corpus : list str) :
  NoDup (first_occurrences corpus).
Proof.
  unfold first_occurrences.
  assert (H : forall seen,
    NoDup seen ->
    NoDup (fold_left (fun seen w => if decide (w ∈ seen) then seen else seen ++ [w])
                     corpus seen)).
  { induction corpus as [|x corpus IH]; intros seen Hnd; simpl; [exact Hnd|].
    apply IH. destruct (decide (x ∈ seen)) as [Hx|Hx]; [exact Hnd|].
    apply NoDup_app. split; [exact Hnd|]. split.
    - intros y Hy Hy'. apply list_elem_of_singleton in Hy'. subst y.
      contradiction.
    - apply NoDup_singleton. }
  apply H. constructor.
Qed.

(** Under a non-empty key, [add_entry] records a word with the distance
    [d] exactly when deleting [d] characters of the word, at most
    [max(1, max_distance)], gives the key. *)
Lemma variant_distance_produces (md : Z) (w v : str) (d : Z) :
  (0 < length v)%nat ->
  variant_distance md w v = Some d <-> produces (Z.max 1 md) w v d.
Proof.
  intros Hv. unfold variant_distance, produces.
  destruct (decide (v = w)) as [->|Hne].
  - split.
    + intros [= <-]. split; [lia|]. constructor.
    + intros [Hd Hdel]. apply deletes_to_sublist in Hdel as [_ Hlen].
      f_equal. lia.
  - split.
    + intros Hf. destruct (find _ _) as [s|] eqn:Hfind; [|discriminate Hf].
      simpl in Hf. injection Hf as <-.
      apply find_some in Hfind as [Hin Ht].
      apply list_elem_of_In in Hin.
      unfold str_eqb in Ht. apply bool_decide_eq_true in Ht. subst v.
      apply edits_rec_sound in Hin; [|reflexivity].
      destruct Hin as (_ & Hsub & H1 & Hlt & Hd & Hb).
      split; [lia|]. apply deletes_to_sublist. split; [exact Hsub | lia].
    + intros [Hd Hdel]. apply deletes_to_sublist in Hdel as [Hsub Hlen].
      assert (Hlt : (length v < length w)%nat).
      { destruct (decide (length v = length w)) as [He|He]; [|lia].
        exfalso. apply Hne. apply sublist_same_length; assumption. }
      assert (Hin : v ∈ map term (edits w md 1)).
      { apply edits_rec_complete;
          [reflexivity | exact Hsub | lia | exact Hlt | lia]. }
      apply list_elem_of_fmap_1 in Hin as (s0 & Ht0 & Hs0).
      destruct (find _ _) as [s|] eqn:Hfind.
      * apply find_some in Hfind as [Hs Ht]. apply list_elem_of_In in Hs.
        unfold str_eqb in Ht. apply bool_decide_eq_true in Ht.
        apply edits_rec_sound in Hs; [|reflexivity].
        destruct Hs as (_ & _ & _ & _ & Hds & _).
        simpl. f_equal. rewrite Hds, Ht. lia.
      * exfalso. apply list_elem_of_In in Hs0.
        apply (find_none _ _ Hfind) in Hs0. unfold str_eqb in Hs0.
        rewrite bool_decide_eq_true_2 in Hs0 by (symmetry; exact Ht0).
        discriminate Hs0.
Qed.

Lemma elem_of_producers (md : Z) (words : list str) (v : str) (s : Suggestion) :
  s ∈ producers md words v
  <-> count s = 0 /\ term s ∈ words /\
      variant_distance md (term s) v = Some (distance s).
Proof.
  unfold producers. rewrite list_elem_of_omap. split.
  - intros (w & Hw & Hf).
    destruct (variant_distance md w v) as [d|] eqn:Hd; [|discriminate Hf].
    simpl in Hf. injection Hf as <-. simpl. auto.
  - intros (Hc & Hw & Hd). exists (term s). split; [exact Hw|].
    rewrite Hd. simpl. destruct s as [t n d]. simpl in Hc. subst n.
    reflexivity.
Qed.

Lemma producers_producer (md : Z) (words : list str) (v : str) (s : Suggestion) :
  (0 < length v)%nat ->
  s ∈ producers md words v <-> producer (Z.max 1 md) words v s.
Proof.
  intros Hv. rewrite elem_of_producers. unfold producer.
  rewrite (variant_distance_produces md (term s) v (distance s) Hv).
  reflexivity.
Qed.

Lemma producers_sublist (md : Z) (words : list str) (v : str) :
  map term (producers md words v) `sublist_of` words.
Proof.
  unfold producers. induction words as [|w ws IH]; [constructor|].
  cbn [omap list_omap]. destruct (variant_distance md w v) as [d|]; simpl.
  - constructor. exact IH.
  - constructor. exact IH.
Qed.









(** * Further properties of the code *)

(** ** Soundness of the index *)

Lemma NoDup_keep_lowest_distance (keep_all : bool) (l : list Suggestion)
    (s : Suggestion) :
  NoDup (map term l) -> term s ∉ map term l ->
  NoDup (map term (keep_lowest_distance keep_all l s)).
Proof.
  intros Hnd Hs. unfold keep_lowest_distance.
  set (l1 := match l with [] => l | _ => _ end).
  assert (Hl1 : l1 = l \/ l1 = []).
  { subst l1. destruct l as [|h t]; [tauto|].
    destruct (negb keep_all && _); tauto. }
  assert (Hsnoc : NoDup (map term (l1 ++ [s]))).
  { destruct Hl1 as [->| ->]; [|repeat constructor; apply not_elem_of_nil].
    rewrite map_app. apply NoDup_app. split; [exact Hnd|]. split.
    - intros t Ht Hin. apply list_elem_of_singleton in Hin. subst t. tauto.
    - apply NoDup_singleton. }
  destruct (keep_all || _); [exact Hsnoc|].
  destruct Hl1 as [->| ->]; [exact Hnd | constructor].
Qed.

Lemma entry_sound_mono (c c' : Corrector) (k : str) (s : Suggestion) :
  max_distance c' = max_distance c ->
  (forall w t, dictionary c !! w = Some (Some t) ->
               exists t', dictionary c' !! w = Some (Some t')) ->
  entry_sound c k s -> entry_sound c' k s.
Proof.
  intros Hmd Hdict (Hc & Hsub & Hd & Hb & t & Ht).
  repeat split; try assumption; [rewrite Hmd; exact Hb|].
  apply (Hdict _ t Ht).
Qed.

Lemma edits_entry_sound (c : Corrector) (w : str) (delete : Suggestion) (t : Term) :
  delete ∈ edits w (max_distance c) 1 ->
  dictionary c !! w = Some (Some t) ->
  entry_sound c (term delete) (mkSuggestion w 0 (distance delete)).
Proof.
  intros Hin Ht. apply edits_rec_sound in Hin; [|reflexivity].
  destruct Hin as (_ & Hsub & H1 & Hlt & Hd & Hb).
  unfold entry_sound. simpl. split; [reflexivity|]. split; [exact Hsub|].
  split; [lia|]. split; [lia|]. exists t. exact Ht.
Qed.

Lemma add_entry_sound (c : Corrector) (w : str) :
  index_sound c -> index_sound (snd (add_entry c w)).
Proof.
  intros [Hd Hi]. unfold add_entry, defaultdict_get.
  pose proof (Hd w) as Hdw.
  destruct (dictionary c !! w) as [[t|]|] eqn:Hw; [|contradiction|].
  - (* a known word *)
    simpl.
    assert (Hkeep : forall w' t', dictionary c !! w' = Some (Some t') ->
              exists t'', <[w:=Some (bump t)]> (dictionary c) !! w' = Some (Some t'')).
    { intros w' t' Hw'. destruct (decide (w = w')) as [<-|Hne].
      - eexists. apply lookup_insert_eq.
      - exists t'. rewrite lookup_insert_ne by exact Hne. exact Hw'. }
    split.
    + intros w'. cbn [dictionary]. destruct (decide (w = w')) as [<-|Hne].
      * rewrite lookup_insert_eq. simpl. destruct Hdw as [Ht Hc]. split; [exact Ht | lia].
      * rewrite lookup_insert_ne by exact Hne. apply Hd.
    + intros k l Hk. cbn [suggestions] in Hk. destruct (Hi k l Hk) as [Hnd He].
      split; [exact Hnd|]. intros s Hs.
      apply (entry_sound_mono c); [reflexivity | exact Hkeep | apply He, Hs].
  - (* a new word *)
    simpl.
    set (dict' := <[w:=Some (bump (mkTerm w 0))]> (<[w:=None]> (dictionary c))).
    set (c' := mkCorrector _ _ dict' _ _).
    assert (Hkeep : forall w' t', dictionary c !! w' = Some (Some t') ->
              exists t'', dict' !! w' = Some (Some t'')).
    { intros w' t' Hw'. destruct (decide (w = w')) as [<-|Hne]; [congruence|].
      exists t'. subst dict'. rewrite !lookup_insert_ne by exact Hne. exact Hw'. }
    assert (Hown : dict' !! w = Some (Some (bump (mkTerm w 0))))
      by apply lookup_insert_eq.
    assert (Hold : forall k l s, suggestions c !! k = Some l -> s ∈ l ->
              entry_sound c' k s /\ term s <> w).
    { intros k l s Hk Hs. destruct (Hi k l Hk) as [_ He].
      specialize (He s Hs). split.
      - apply (entry_sound_mono c); [reflexivity | exact Hkeep | exact He].
      - destruct He as (_ & _ & _ & _ & t & Ht). congruence. }
    split.
    + intros w'. subst c'. cbn [dictionary].
      destruct (decide (w = w')) as [<-|Hne].
      * rewrite Hown. simpl. split; [reflexivity | lia].
      * subst dict'. rewrite !lookup_insert_ne by exact Hne. apply Hd.
    + intros k l Hk. unfold c' at 1 in Hk. cbn [suggestions] in Hk.
      pose proof (fold_index_delete_lookup (keep_all_suggestions c) w
                    (edits w (max_distance c) 1)
                    (<[w:=[mkSuggestion w 0 0]]> (suggestions c)) k
                    (edits_rec_NoDup _ _ _ _)) as Hl.
      rewrite Hk in Hl. simpl in Hl. subst l.
      destruct (find _ _) as [delete|] eqn:Hf.
      * apply find_some in Hf as [Hin Hk']. apply list_elem_of_In in Hin.
        apply bool_decide_eq_true_1 in Hk'. subst k.
        assert (Hne : w <> term delete).
        { intros He. apply edits_rec_sound in Hin; [|reflexivity].
          destruct Hin as (_ & _ & _ & Hlt & _). rewrite <- He in Hlt. lia. }
        rewrite lookup_insert_ne by exact Hne.
        destruct (suggestions c !! term delete) as [l0|] eqn:Hl0; simpl.
        -- destruct (Hi _ _ Hl0) as [Hnd _]. split.
           ++ apply NoDup_keep_lowest_distance; [exact Hnd|]. simpl.
              intros Hw'. apply list_elem_of_fmap_1 in Hw' as (s & Hs & Hs').
              destruct (Hold _ _ _ Hl0 Hs') as [_ Hsw]. congruence.
           ++ intros s Hs. apply elem_of_keep_lowest_distance in Hs as [Hs| ->].
              ** apply (Hold _ _ _ Hl0 Hs).
              ** apply (edits_entry_sound c' w delete _ Hin Hown).
        -- split; [apply NoDup_keep_lowest_distance;
                    [constructor | apply not_elem_of_nil]|].
           intros s Hs. apply elem_of_keep_lowest_distance in Hs as [Hs| ->];
             [inversion Hs|].
           apply (edits_entry_sound c' w delete _ Hin Hown).
      * destruct (decide (w = k)) as [<-|Hne].
        -- rewrite lookup_insert_eq. simpl. split.
           ++ repeat constructor. apply not_elem_of_nil.
           ++ intros s Hs. apply list_elem_of_singleton in Hs. subst s.
              unfold entry_sound. simpl. split; [reflexivity|].
              split; [reflexivity|]. split; [lia|]. split; [lia|].
              eexists. exact Hown.
        -- rewrite lookup_insert_ne by exact Hne.
           destruct (suggestions c !! k) as [l0|] eqn:Hl0; simpl.
           ++ destruct (Hi _ _ Hl0) as [Hnd _]. split; [exact Hnd|].
              intros s Hs. apply (Hold _ _ _ Hl0 Hs).
           ++ split; [constructor|]. intros s Hs. inversion Hs.
Qed.

Lemma with_index_sound (c : Corrector) (idx : gmap str (list Suggestion)) :
  index_extends (suggestions c) idx -> index_sound c ->
  index_sound (with_index c idx).
Proof.
  intros Hext [Hd Hi]. split; [exact Hd|].
  intros k l Hk. cbn [with_index suggestions] in Hk.
  destruct (Hext k) as [He|[_ He]].
  - rewrite He in Hk. destruct (Hi k l Hk) as [Hnd Hs]. split; [exact Hnd|].
    intros s Hin. apply (entry_sound_mono c); [reflexivity | eauto | apply Hs, Hin].
  - rewrite He in Hk. injection Hk as <-. split; [constructor|].
    intros s Hin. inversion Hin.
Qed.

(** The dictionary and the index of every reachable corrector are sound. *)
Lemma reachable_sound (c : Corrector) : reachable c -> index_sound c.
Proof.
  induction 1 as [md ka m|c entry _ IH|c word r c' _ IH Hs|c word r c' _ IH Hc].
  - split.
    + intros w. simpl. rewrite lookup_empty. exact I.
    + intros k l Hk. simpl in Hk. rewrite lookup_empty in Hk. discriminate Hk.
  - apply add_entry_sound, IH.
  - destruct (suggest_result c word) as (st & Hs' & Hext & _).
    rewrite Hs in Hs'. injection Hs' as _ ->. apply with_index_sound; assumption.
  - unfold correct in Hc.
    destruct (suggest c word) as [[r' c'']|] eqn:Hs; [|discriminate Hc].
    injection Hc as _ <-.
    destruct (suggest_result c word) as (st & Hs' & Hext & _).
    rewrite Hs in Hs'. injection Hs' as _ ->. apply with_index_sound; assumption.
Qed.

(** ** The search for a query *)

Lemma elem_of_fold_enqueue (es q sn : list Suggestion) (x : Suggestion) :
  x ∈ fst (fold_left enqueue es (q, sn)) -> x ∈ q \/ x ∈ es.
Proof.
  revert q sn. induction es as [|e es IH]; intros q sn; simpl; [tauto|].
  destruct (set_in e sn); intros Hx; apply IH in Hx as [Hx|Hx].
  - tauto.
  - right. right. exact Hx.
  - apply elem_of_app in Hx as [Hx|Hx]; [tauto|].
    apply list_elem_of_singleton in Hx. subst x. right. left.
  - right. right. exact Hx.
Qed.

Lemma NoDup_consider (c : Corrector) (word : str) (candidate : Suggestion)
    (acc : list Suggestion) (cs : Suggestion) :
  NoDup (map term acc) -> NoDup (map term (consider c word candidate acc cs)).
Proof.
  intros Hnd. unfold consider. destruct (Qle_bool _ _); [|exact Hnd].
  destruct acc as [|some acc]; [apply NoDup_set_add, Hnd|].
  destruct (negb _); [|apply NoDup_set_add, Hnd].
  destruct (Qlt_bool _ _); [exact Hnd|].
  destruct (Qlt_bool _ _); apply NoDup_set_add; [constructor | exact Hnd].
Qed.

Lemma round_sound (idx0 : gmap str (list Suggestion)) (c : Corrector)
    (word : str) (candidate : Suggestion) (rest : list Suggestion) (st : Search) :
  candidates st = candidate :: rest ->
  search_sound word idx0 st ->
  search_sound word idx0 (round c word candidate rest st).
Proof.
  intros Hq (Hext & Hcand & Hnd & Hfound). rewrite Hq in Hcand.
  apply Forall_cons in Hcand as [Hc Hrest].
  destruct (defaultdict_get_list (index st) (term candidate)) as (Hl & He & _).
  split; [|split; [|split]].
  - rewrite index_round. eapply index_extends_trans; [exact Hext | exact He].
  - rewrite candidates_round.
    destruct (distance candidate <? max_distance c); [|exact Hrest].
    apply Forall_forall. intros x Hx.
    apply elem_of_fold_enqueue in Hx as [Hx|Hx].
    + rewrite Forall_forall in Hrest. apply Hrest, Hx.
    + apply edits_rec_sound in Hx; [|reflexivity].
      destruct Hx as (_ & Hsub & _). etransitivity; [exact Hsub | exact Hc].
  - rewrite found_round.
    apply (fold_left_invariant (consider c word candidate)
             (fun acc => NoDup (map term acc))); [exact Hnd|].
    intros acc cs _. apply NoDup_consider.
  - intros s. rewrite found_round, Hl. intros Hs.
    apply elem_of_fold_consider in Hs as [Hs|Hs]; [apply Hfound, Hs|].
    destruct (index st !! term candidate) as [l|] eqn:Hk; [|inversion Hs].
    exists (term candidate), l. split; [exact Hc|]. split; [|exact Hs].
    destruct (Hext (term candidate)) as [He'|[_ He']]; [congruence|].
    rewrite He' in Hk. injection Hk as <-. inversion Hs.
Qed.

(** The shape of every result of [suggest], with what the search keeps. *)
Lemma suggest_sound (c : Corrector) (word : str) :
  exists st : Search,
    suggest c word = Some (sorted (found st), with_index c (index st)) /\
    search_sound word (suggestions c) st.
Proof.
  destruct (suggest_total c word) as (r & c' & Hs). unfold suggest in *.
  destruct (search _ c word _) as [st|] eqn:Hsearch; [|discriminate].
  exists st. split; [reflexivity|]. revert Hsearch.
  apply (search_invariant (search_sound word (suggestions c))).
  - intros candidate rest st0. apply round_sound.
  - split; [apply index_extends_refl|]. split; [|split].
    + constructor; [reflexivity | constructor].
    + constructor.
    + intros s Hin. inversion Hin.
Qed.

(** ** What a query returns *)

(** [suggest] returns distinct words, and each of them is a word of the
    dictionary, there with a positive count. *)
Theorem suggest_returns_dictionary_words (c : Corrector) (word : str) :
  reachable c ->
  exists (r : list Suggestion) (c' : Corrector),
    suggest c word = Some (r, c') /\
    NoDup (map term r) /\
    forall s : Suggestion,
      s ∈ r ->
      exists t : Term,
        dictionary c !! term s = Some (Some t) /\
        t_term t = term s /\ 1 <= t_count t.
Proof.
  intros Hreach. apply reachable_sound in Hreach as [Hd Hi].
  destruct (suggest_sound c word) as (st & Hs & _ & _ & Hnd & Hfound).
  exists (sorted (found st)), (with_index c (index st)).
  split; [exact Hs|]. split.
  - rewrite (fmap_Permutation term _ _ (sorted_perm (found st))). exact Hnd.
  - intros s Hin. rewrite (sorted_perm (found st)) in Hin.
    destruct (Hfound s Hin) as (k & l & _ & Hk & Hl).
    destruct (Hi k l Hk) as [_ He].
    destruct (He s Hl) as (_ & _ & _ & _ & t & Ht).
    exists t. split; [exact Ht|]. specialize (Hd (term s)).
    rewrite Ht in Hd. exact Hd.
Qed.

(** The theorem at the corrector that holds the one word "hello". *)
Lemma suggest_returns_words_witness :
  reachable (snd (add_entry (Faroo 2 false) hello)) /\
  exists (r : list Suggestion) (c' : Corrector),
    suggest (snd (add_entry (Faroo 2 false) hello)) (py "hel") = Some (r, c') /\
    NoDup (map term r) /\
    forall s : Suggestion,
      s ∈ r ->
      exists t : Term,
        dictionary (snd (add_entry (Faroo 2 false) hello)) !! term s
        = Some (Some t) /\
        t_term t = term s /\ 1 <= t_count t.
Proof.
  split; [apply reach_add_entry, reach_new|].
  apply suggest_returns_dictionary_words. apply reach_add_entry, reach_new.
Defined.

(** Every suggestion [suggest] returns shares a subsequence [k] with the
    query: [k] is the query with some characters deleted and the
    suggested word with [distance] characters deleted, where [distance]
    is the distance the suggestion carries, between 0 and the larger of 1
    and [max_distance]. *)
Theorem suggest_shares_variant_with_query (c : Corrector) (word : str) :
  reachable c ->
  exists (r : list Suggestion) (c' : Corrector),
    suggest c word = Some (r, c') /\
    forall s : Suggestion,
      s ∈ r ->
      0 <= distance s <= Z.max 1 (max_distance c) /\
      exists k : str,
        k `sublist_of` word /\ k `sublist_of` term s /\
        (length k + Z.to_nat (distance s) = length (term s))%nat.
Proof.
  intros Hreach. apply reachable_sound in Hreach as [Hd Hi].
  destruct (suggest_sound c word) as (st & Hs & _ & _ & _ & Hfound).
  exists (sorted (found st)), (with_index c (index st)).
  split; [exact Hs|]. intros s Hin. rewrite (sorted_perm (found st)) in Hin.
  destruct (Hfound s Hin) as (k & l & Hkw & Hk & Hl).
  destruct (Hi k l Hk) as [_ He].
  destruct (He s Hl) as (_ & Hsub & Hdist & Hb & _).
  split; [lia|]. exists k. split; [exact Hkw|]. split; [exact Hsub|].
  apply sublist_length in Hsub. lia.
Qed.

(** The theorem at the corrector that holds the one word "hello". *)
Lemma suggest_shares_variant_witness :
  reachable (snd (add_entry (Faroo 2 false) hello)) /\
  exists (r : list Suggestion) (c' : Corrector),
    suggest (snd (add_entry (Faroo 2 false) hello)) (py "help") = Some (r, c') /\
    forall s : Suggestion,
      s ∈ r ->
      0 <= distance s <= Z.max 1 2 /\
      exists k : str,
        k `sublist_of` py "help" /\ k `sublist_of` term s /\
        (length k + Z.to_nat (distance s) = length (term s))%nat.
Proof.
  split; [apply reach_add_entry, reach_new|].
  apply (suggest_shares_variant_with_query
           (snd (add_entry (Faroo 2 false) hello)) (py "help")).
  apply reach_add_entry, reach_new.
Defined.

(** When the index holds nothing under the query and under the strings
    obtained from it by deleting characters, [suggest] returns the empty
    list and [correct] returns [None]. *)
Theorem suggest_nothing_indexed (c : Corrector) (word : str) :
  (forall k : str, k `sublist_of` word -> default [] (suggestions c !! k) = []) ->
  exists c' : Corrector,
    suggest c word = Some ([], c') /\ correct c word = Some (None, c').
Proof.
  intros Hnone.
  destruct (suggest_sound c word) as (st & Hs & _ & _ & _ & Hfound).
  assert (Hempty : found st = []).
  { destruct (found st) as [|s l]; [reflexivity|].
    destruct (Hfound s) as (k & l' & Hkw & Hk & Hl); [left|].
    specialize (Hnone k Hkw). rewrite Hk in Hnone. simpl in Hnone.
    subst l'. inversion Hl. }
  rewrite Hempty in Hs. exists (with_index c (index st)).
  split; [exact Hs|]. unfold correct. rewrite Hs. reflexivity.
Qed.

(** The theorem at a corrector to which no word has been added. *)
Lemma nothing_indexed_witness :
  (forall k : str, k `sublist_of` py "hel" ->
                   default [] (suggestions (Faroo 2 false) !! k) = []) /\
  exists c' : Corrector,
    suggest (Faroo 2 false) (py "hel") = Some ([], c') /\
    correct (Faroo 2 false) (py "hel") = Some (None, c').
Proof.
  assert (H : forall k : str, k `sublist_of` py "hel" ->
                default [] (suggestions (Faroo 2 false) !! k) = []).
  { intros k _. reflexivity. }
  split; [exact H|]. apply (suggest_nothing_indexed (Faroo 2 false) (py "hel") H).
Defined.

(** [correct] returns the first element of what [suggest] returns:
    nothing exactly when [suggest] returns the empty list, and otherwise
    a returned suggestion whose key (distance, count) no other returned
    suggestion undercuts. *)
Theorem correct_is_least_of_suggest (c : Corrector) (word : str) :
  exists (r : list Suggestion) (c' : Corrector),
    suggest c word = Some (r, c') /\
    correct c word = Some (head r, c') /\
    (head r = None <-> r = []) /\
    forall s : Suggestion,
      head r = Some s ->
      s ∈ r /\ forall s' : Suggestion, s' ∈ r -> key_le s s'.
Proof.
  destruct (suggest_result c word) as (st & Hs & _).
  exists (sorted (found st)), (with_index c (index st)).
  split; [exact Hs|]. split; [unfold correct; rewrite Hs; reflexivity|].
  pose proof (Sorted_StronglySorted key_le_trans (sorted_sorted (found st))) as Hsorted.
  destruct (sorted (found st)) as [|s r]; simpl.
  - split; [tauto|]. intros s Hs'. discriminate Hs'.
  - split; [split; discriminate|]. intros s0 [= <-]. split; [left|].
    apply StronglySorted_inv in Hsorted as [_ Hall].
    intros s' Hs'. apply elem_of_cons in Hs' as [->|Hs'].
    + unfold key_le. lia.
    + rewrite Forall_forall in Hall. apply Hall, Hs'.
Qed.

(** ** Adding words *)

Lemma add_entry_fst (c : Corrector) (w : str) :
  fst (add_entry c w)
  = match dictionary c !! w with Some (Some _) => false | _ => true end.
Proof.
  unfold add_entry, defaultdict_get.
  destruct (dictionary c !! w) as [[t|]|]; reflexivity.
Qed.

Lemma add_entry_dictionary (c : Corrector) (w : str) :
  dictionary (snd (add_entry c w))
  = <[w := Some (bump (match dictionary c !! w with
                       | Some (Some t) => t
                       | _ => mkTerm w 0
                       end))]> (dictionary c).
Proof.
  unfold add_entry, defaultdict_get.
  destruct (dictionary c !! w) as [[t|]|]; simpl; try reflexivity.
  apply insert_insert_eq.
Qed.

Lemma add_corpus_snoc (c : Corrector) (pre : list str) (w : str) :
  add_corpus c (pre ++ [w])
  = (if fst (add_entry (index_of c pre) w)
     then fst (add_corpus c pre) + 1 else fst (add_corpus c pre),
     snd (add_entry (index_of c pre) w)).
Proof.
  unfold index_of, add_corpus. rewrite fold_left_app. simpl.
  destruct (fold_left _ pre (0, c)) as [n c1]. simpl.
  destruct (add_entry c1 w) as [b c2]. reflexivity.
Qed.

Lemma index_of_snoc (c : Corrector) (pre : list str) (w : str) :
  index_of c (pre ++ [w]) = snd (add_entry (index_of c pre) w).
Proof. unfold index_of at 1. rewrite add_corpus_snoc. reflexivity. Qed.

Lemma occurrences_snoc (w w0 : str) (pre : list str) :
  occurrences w (pre ++ [w0])
  = (occurrences w pre + if decide (w0 = w) then 1 else 0)%nat.
Proof.
  unfold occurrences. rewrite filter_app, length_app. f_equal.
  destruct (decide (w0 = w)) as [He|Hne].
  - rewrite (filter_cons_True _ w0 []) by exact He. reflexivity.
  - rewrite (filter_cons_False _ w0 []) by exact Hne. reflexivity.
Qed.

Lemma occurrences_pos (w : str) (corpus : list str) :
  w ∈ corpus <-> (0 < occurrences w corpus)%nat.
Proof.
  unfold occurrences. split.
  - intros Hin.
    assert (Hf : w ∈ filter (fun x => x = w) corpus)
      by (apply list_elem_of_filter; tauto).
    destruct (filter _ corpus); [inversion Hf | simpl; lia].
  - intros Hpos. destruct (filter (fun x => x = w) corpus) as [|x l] eqn:Hf;
      [simpl in Hpos; lia|].
    assert (Hx : x ∈ filter (fun x => x = w) corpus) by (rewrite Hf; left).
    apply list_elem_of_filter in Hx as [-> Hx]. exact Hx.
Qed.

(** [add_corpus] on a new corrector returns the number of distinct words
    of the corpus, and leaves in the dictionary exactly the words of the
    corpus, each with the number of its occurrences as count. *)
Theorem add_corpus_counts (md : Z) (keep_all : bool) (m : str -> str -> Q)
    (corpus : list str) :
  fst (add_corpus (new md keep_all m) corpus)
  = Z.of_nat (size (list_to_set corpus : gset str)) /\
  forall w : str,
    dictionary (index_of (new md keep_all m) corpus) !! w
    = if decide (w ∈ corpus)
      then Some (Some (mkTerm w (Z.of_nat (occurrences w corpus))))
      else None.
Proof.
  induction corpus as [|w0 pre [IHn IHd]] using rev_ind.
  - split; [reflexivity|]. intros w. cbn [index_of add_corpus fold_left snd new dictionary].
    rewrite lookup_empty.
    destruct (decide (w ∈ [])) as [H|_]; [inversion H | reflexivity].
  - rewrite index_of_snoc, add_corpus_snoc.
    cbn [fst snd]. rewrite add_entry_fst, add_entry_dictionary.
    rewrite (IHd w0). split.
    + rewrite list_to_set_app_L, list_to_set_singleton.
      destruct (decide (w0 ∈ pre)) as [Hin|Hnin].
      * rewrite IHn. f_equal. f_equal.
        apply set_eq. intros x. rewrite elem_of_union, elem_of_singleton,
          elem_of_list_to_set. split; [tauto|]. intros [Hx| ->]; assumption.
      * rewrite IHn, size_union, size_singleton; [lia|].
        intros x Hx Hx'. apply elem_of_singleton in Hx'. subst x.
        apply elem_of_list_to_set in Hx. tauto.
    + intros w. destruct (decide (w0 = w)) as [<-|Hne].
      * rewrite lookup_insert_eq, occurrences_snoc.
        destruct (decide (w0 ∈ pre ++ [w0])) as [_|Hn];
          [|exfalso; apply Hn, elem_of_app; right; left].
        destruct (decide (w0 = w0)) as [_|Hn]; [|congruence].
        destruct (decide (w0 ∈ pre)) as [Hin|Hnin].
        -- unfold bump. simpl. do 3 f_equal. lia.
        -- unfold bump. simpl. do 3 f_equal.
           assert (occurrences w0 pre = 0%nat); [|lia].
           destruct (occurrences w0 pre) eqn:Ho; [reflexivity|].
           exfalso. apply Hnin, occurrences_pos. lia.
      * rewrite lookup_insert_ne by exact Hne. rewrite IHd, occurrences_snoc.
        destruct (decide (w0 = w)) as [He|_]; [congruence|].
        rewrite Nat.add_0_r.
        destruct (decide (w ∈ pre)) as [Hin|Hnin],
                 (decide (w ∈ pre ++ [w0])) as [Hin'|Hnin']; try reflexivity.
        -- exfalso. apply Hnin', elem_of_app. left. exact Hin.
        -- exfalso. apply elem_of_app in Hin' as [Hx|Hx]; [tauto|].
           apply list_elem_of_singleton in Hx. congruence.
Qed.

(** Adding a word that the dictionary already has returns [False], adds
    one to its count and changes nothing else: the other entries of the
    dictionary, the index and the configuration stay as they are. *)
Theorem add_entry_known_word (c : Corrector) (w : str) (t : Term) :
  dictionary c !! w = Some (Some t) ->
  fst (add_entry c w) = false /\
  dictionary (snd (add_entry c w))
    = <[w := Some (mkTerm (t_term t) (t_count t + 1))]> (dictionary c) /\
  suggestions (snd (add_entry c w)) = suggestions c /\
  max_distance (snd (add_entry c w)) = max_distance c /\
  keep_all_suggestions (snd (add_entry c w)) = keep_all_suggestions c.
Proof.
  intros Ht. rewrite add_entry_fst, add_entry_dictionary, Ht.
  split; [reflexivity|]. split; [reflexivity|].
  unfold add_entry, defaultdict_get. rewrite Ht. simpl. tauto.
Qed.

(** The theorem at the corrector that already holds "hello". *)
Lemma known_word_witness :
  dictionary (snd (add_entry (Faroo 2 false) hello)) !! hello
    = Some (Some (mkTerm hello 1)) /\
  fst (add_entry (snd (add_entry (Faroo 2 false) hello)) hello) = false.
Proof.
  assert (H : dictionary (snd (add_entry (Faroo 2 false) hello)) !! hello
              = Some (Some (mkTerm hello 1))) by (vm_compute; reflexivity).
  split; [exact H|].
  exact (proj1 (add_entry_known_word _ hello _ H)).
Defined.

(** ** The deletion generator below the recursion *)

Lemma edits_step_no_recursion (len' : nat) (w : str) (k : Z)
    (acc : list Suggestion) (i : nat) :
  k <= 1 -> edits_step len' w k 1 acc i = edits_step len' w 1 1 acc i.
Proof.
  intros Hk. unfold edits_step.
  replace (1 <? k) with false by (symmetry; apply Z.ltb_ge; exact Hk).
  reflexivity.
Qed.

Lemma edits_one_length (t : str) : (length (edits t 1 1) <= length t)%nat.
Proof.
  unfold edits. destruct (length t) as [|len'] eqn:Hlen; [simpl; lia|].
  rewrite edits_rec_S. destruct (1 <? length t)%nat; [|simpl; lia].
  assert (Hfold : forall l acc,
    (length (fold_left (edits_step len' t 1 1) l acc) <= length acc + length l)%nat).
  { induction l as [|i l IH]; intros acc; simpl; [lia|].
    etransitivity; [apply IH|].
    unfold edits_step. destruct (set_in _ acc) eqn:Hin; [lia|].
    change (1 <? 1) with false. cbv iota.
    unfold set_add. rewrite Hin, length_app. simpl. lia. }
  specialize (Hfold (seq 0 (length t)) []). rewrite length_seq in Hfold.
  simpl in Hfold. lia.
Qed.

(** With [max_distance] at most 1 (0 and negative values included)
    [edits] does not recurse: it returns the deletions of one character,
    each with distance 1, at most [len(w)] of them, and none for a word
    of fewer than two characters. *)
Theorem edits_without_recursion (w : str) (k : Z) :
  k <= 1 ->
  edits w k 1 = edits w 1 1 /\
  (length (edits w k 1) <= length w)%nat /\
  forall s : Suggestion,
    s ∈ edits w k 1
    <-> (1 < length w)%nat /\
        exists i : nat, (i < length w)%nat /\ s = mkSuggestion (remove_at i w) 0 1.
Proof.
  intros Hk.
  assert (He : edits w k 1 = edits w 1 1).
  { unfold edits. destruct (length w) as [|len'] eqn:Hlen; [reflexivity|].
    rewrite !edits_rec_S. destruct (1 <? length w)%nat; [|reflexivity].
    apply fold_left_ext_in. intros acc i _. apply edits_step_no_recursion, Hk. }
  split; [exact He|]. rewrite He. split; [apply edits_one_length|].
  intros s. split.
  - intros Hs. apply edits_rec_sound in Hs; [|reflexivity].
    destruct Hs as (Hc & Hsub & H1 & Hlt & Hd & Hb). split; [lia|].
    destruct (sublist_remove_one _ _ Hsub Hlt) as (i & Hi & Hsubi).
    exists i. split; [exact Hi|].
    assert (Ht : term s = remove_at i w).
    { apply sublist_same_length; [exact Hsubi|].
      rewrite length_remove_at by exact Hi. lia. }
    destruct s as [t c d]. simpl in *. subst. f_equal. lia.
  - intros (Hn & i & Hi & ->).
    assert (Hin : remove_at i w ∈ map term (edits w 1 1)).
    { apply (edits_rec_complete (length w) w 1 1 _ eq_refl).
      - apply sublist_remove_at.
      - rewrite length_remove_at by exact Hi. lia.
      - rewrite length_remove_at by exact Hi. lia.
      - left. rewrite length_remove_at by exact Hi. lia. }
    apply list_elem_of_fmap_1 in Hin as (s' & Ht & Hs').
    apply edits_rec_sound in Hs' as Hg; [|reflexivity].
    destruct Hg as (Hc & _ & _ & Hlt & Hd & Hb).
    replace (mkSuggestion (remove_at i w) 0 1) with s'; [exact Hs'|].
    destruct s' as [t c d]. simpl in *. subst. f_equal.
    rewrite length_remove_at in * by exact Hi. lia.
Qed.

(** The theorem at [max_distance = 0] and the word "hell". *)
Lemma no_recursion_witness :
  0 <= 1 /\ edits hell 0 1 = edits hell 1 1.
Proof.
  split; [lia|]. exact (proj1 (edits_without_recursion hell 0 ltac:(lia))).
Defined.

(** ** The index that keeps all suggestions *)

Lemma keep_lowest_distance_all (l : list Suggestion) (s : Suggestion) :
  keep_lowest_distance true l s = l ++ [s].
Proof. unfold keep_lowest_distance. destruct l; reflexivity. Qed.

Lemma from_word_fresh (w : str) (ws : list str) :
  w ∉ ws -> from_word w (ws ++ [w]) = [w].
Proof.
  induction ws as [|x ws IH]; intros Hw; simpl.
  - rewrite decide_True by reflexivity. reflexivity.
  - rewrite decide_False.
    + apply IH. intros Hin. apply Hw. right. exact Hin.
    + intros ->. apply Hw. left.
Qed.

Lemma from_word_snoc (v w : str) (ws : list str) :
  v ∈ ws -> from_word v (ws ++ [w]) = from_word v ws ++ [w].
Proof.
  induction ws as [|x ws IH]; intros Hv; simpl; [inversion Hv|].
  destruct (decide (x = v)) as [_|Hne]; [reflexivity|].
  apply IH. apply elem_of_cons in Hv as [->|Hv]; [congruence | exact Hv].
Qed.

Lemma heard_fresh (w : str) (ws : list str) :
  w ∉ ws -> heard w (ws ++ [w]) = [w].
Proof.
  intros Hw. unfold heard.
  rewrite decide_True by (apply elem_of_app; right; left).
  apply from_word_fresh, Hw.
Qed.

Lemma heard_snoc (v w : str) (ws : list str) :
  v <> w -> heard v (ws ++ [w]) = heard v ws ++ [w].
Proof.
  intros Hne. unfold heard. destruct (decide (v ∈ ws)) as [Hin|Hnin].
  - rewrite decide_True by (apply elem_of_app; left; exact Hin).
    apply from_word_snoc, Hin.
  - rewrite decide_False; [reflexivity|].
    rewrite elem_of_app, list_elem_of_singleton. tauto.
Qed.

Lemma producers_snoc (md : Z) (ws : list str) (w v : str) :
  producers md (ws ++ [w]) v
  = producers md ws v
    ++ match variant_distance md w v with
       | Some d => [mkSuggestion w 0 d]
       | None => []
       end.
Proof.
  unfold producers. rewrite omap_app. simpl.
  destruct (variant_distance md w v); reflexivity.
Qed.

Lemma add_entry_kept_all (md : Z) (ws : list str) (c : Corrector) (w : str) :
  kept_all md ws c ->
  kept_all md (if decide (w ∈ ws) then ws else ws ++ [w]) (snd (add_entry c w)).
Proof.
  intros (Hmd & Hka & Hdict & Hsugg). unfold add_entry, defaultdict_get.
  destruct (Hdict w) as [[Hnin Hnone]|[Hin [t Ht]]].
  - rewrite Hnone. simpl. rewrite decide_False by exact Hnin.
    split; [exact Hmd|]. split; [exact Hka|]. split.
    + intros w'. destruct (decide (w = w')) as [<-|Hne].
      * right. split; [apply elem_of_app; right; left|].
        eexists. cbn [dictionary]. apply lookup_insert_eq.
      * cbn [dictionary]. rewrite !lookup_insert_ne by exact Hne.
        rewrite elem_of_app, list_elem_of_singleton.
        destruct (Hdict w') as [[Hn Hd]|[Hi Hd]]; [left | right].
        -- split; [|exact Hd]. intros [Hi| ->]; tauto.
        -- split; [left; exact Hi | exact Hd].
    + intros v. cbn [suggestions].
      rewrite fold_index_delete_lookup by apply edits_rec_NoDup.
      rewrite Hka, Hmd.
      destruct (decide (v = w)) as [->|Hne].
      * rewrite edits_not_self, lookup_insert_eq, heard_fresh by exact Hnin.
        simpl. unfold variant_distance. rewrite decide_True by reflexivity.
        reflexivity.
      * rewrite lookup_insert_ne by congruence.
        rewrite Hsugg, heard_snoc by exact Hne.
        rewrite producers_snoc.
        unfold variant_distance. rewrite decide_False by exact Hne.
        destruct (find _ _) as [s|]; simpl.
        -- apply keep_lowest_distance_all.
        -- rewrite app_nil_r. reflexivity.
  - rewrite Ht. simpl. rewrite decide_True by exact Hin.
    split; [exact Hmd|]. split; [exact Hka|]. split; [|exact Hsugg].
    intros w'. destruct (decide (w = w')) as [<-|Hne].
    + right. split; [exact Hin|]. eexists. cbn [dictionary]. apply lookup_insert_eq.
    + cbn [dictionary]. rewrite lookup_insert_ne by exact Hne. apply Hdict.
Qed.

Lemma index_of_kept_all (md : Z) (corpus : list str) :
  forall (ws : list str) (c : Corrector),
    kept_all md ws c ->
    kept_all md
      (fold_left (fun seen w => if decide (w ∈ seen) then seen else seen ++ [w])
                 corpus ws)
      (index_of c corpus).
Proof.
  induction corpus as [|w corpus IH]; intros ws c Hc; [exact Hc|].
  rewrite index_of_cons. simpl. apply IH, add_entry_kept_all, Hc.
Qed.

Lemma new_kept_all (md : Z) (m : str -> str -> Q) : kept_all md [] (new md true m).
Proof.
  split; [reflexivity|]. split; [reflexivity|]. split.
  - intros w. left. split; [apply not_elem_of_nil | apply lookup_empty].
  - intros v. simpl. rewrite lookup_empty. reflexivity.
Qed.

Lemma from_word_head (v : str) (ws : list str) :
  v ∈ ws -> exists r, from_word v ws = v :: r.
Proof.
  induction ws as [|x ws IH]; intros Hv; simpl; [inversion Hv|].
  destruct (decide (x = v)) as [->|Hne]; [eexists; reflexivity|].
  apply IH. apply elem_of_cons in Hv as [->|Hv]; [congruence | exact Hv].
Qed.

Lemma from_word_sublist (v : str) (ws : list str) :
  from_word v ws `sublist_of` ws.
Proof.
  induction ws as [|x ws IH]; simpl; [constructor|].
  destruct (decide (x = v)); [reflexivity|]. apply sublist_cons, IH.
Qed.

Lemma heard_sublist (v : str) (ws : list str) : heard v ws `sublist_of` ws.
Proof.
  unfold heard. destruct (decide (v ∈ ws)); [|reflexivity].
  apply from_word_sublist.
Qed.

(** Keeping all suggestions, after any corpus the list of a non-empty
    key holds exactly the words heard since the key's own word was added
    (all words of the corpus when the key is no word of it) from which
    deleting characters, at most [max(1, max_distance)] of them and none
    for the word itself, gives the key, the number of deletions being
    the distance of the entry and its count 0, once each and in the order
    they were first added.  So a key that is no word of the corpus lists
    every word of the corpus that produces it, and a key that is a word
    of the corpus lists itself first, at distance 0, and then only words
    added after it: those added before it are gone from its list. *)
Theorem keep_all_lists_since_own_word (md : Z) (m : str -> str -> Q)
    (corpus : list str) (v : str) :
  (0 < length v)%nat ->
  let l := default [] (suggestions (index_of (new md true m) corpus) !! v) in
  (forall s : Suggestion,
      s ∈ l
      <-> producer (Z.max 1 md) (heard v (first_occurrences corpus)) v s) /\
  NoDup (map term l) /\
  map term l `sublist_of` heard v (first_occurrences corpus) /\
  (v ∉ corpus ->
   forall s : Suggestion, s ∈ l <-> producer (Z.max 1 md) corpus v s) /\
  (v ∈ corpus -> exists rest : list Suggestion, l = mkSuggestion v 0 0 :: rest).
Proof.
  intros Hv l.
  destruct (index_of_kept_all md corpus [] (new md true m) (new_kept_all md m))
    as (_ & _ & _ & Hl).
  specialize (Hl v). fold (first_occurrences corpus) in Hl. fold l in Hl.
  assert (Hsub : map term l `sublist_of` heard v (first_occurrences corpus))
    by (rewrite Hl; apply producers_sublist).
  split; [|split; [|split; [|split]]].
  - intros s. rewrite Hl. apply producers_producer, Hv.
  - apply (sublist_NoDup _ _ (NoDup_first_occurrences corpus)).
    etransitivity; [exact Hsub | apply heard_sublist].
  - exact Hsub.
  - intros Hn s. rewrite Hl, (producers_producer _ _ _ _ Hv). unfold heard.
    rewrite decide_False by (rewrite elem_of_first_occurrences; exact Hn).
    unfold producer. rewrite elem_of_first_occurrences. reflexivity.
  - intros Hin. apply elem_of_first_occurrences in Hin.
    rewrite Hl. unfold heard. rewrite decide_True by exact Hin.
    destruct (from_word_head v (first_occurrences corpus) Hin) as [r ->].
    unfold producers. cbn [omap list_omap]. unfold variant_distance at 1.
    rewrite decide_True by reflexivity. simpl. eexists. reflexivity.
Qed.

(** The theorem at the corpus "hello", "hell" and the key "hell", whose
    list holds "hell" alone. *)
Lemma since_own_word_witness :
  (0 < length hell)%nat /\
  exists rest : list Suggestion,
    default [] (suggestions
                  (index_of (new 2 true wordmetric.edit_distance) [hello; hell])
                !! hell)
    = mkSuggestion hell 0 0 :: rest.
Proof.
  split; [simpl; lia|].
  apply (keep_all_lists_since_own_word 2 wordmetric.edit_distance
           [hello; hell] hell ltac:(simpl; lia)).
  right. left.
Defined.

Lemma consider_keeps (c : Corrector) (word : str) (candidate : Suggestion)
    (acc : list Suggestion) (cs x : Suggestion) :
  keep_all_suggestions c = true ->
  x ∈ acc -> x ∈ consider c word candidate acc cs.
Proof.
  intros Hka Hx. unfold consider. destruct (Qle_bool _ _); [|exact Hx].
  rewrite Hka. destruct acc as [|some acc]; apply set_add_keeps, Hx.
Qed.

Lemma fold_consider_keeps (c : Corrector) (word : str) (candidate : Suggestion)
    (l acc : list Suggestion) (x : Suggestion) :
  keep_all_suggestions c = true ->
  x ∈ acc -> x ∈ fold_left (consider c word candidate) l acc.
Proof.
  intros Hka. revert acc. induction l as [|cs l IH]; intros acc Hx; simpl;
    [exact Hx|].
  apply IH, consider_keeps; assumption.
Qed.

(** Keeping all suggestions, with [max_distance] not negative, [suggest]
    called with a word of the corpus returns that word with distance 0
    among its suggestions. *)
Theorem keep_all_suggests_own_word (md : Z) (m : str -> str -> Q)
    (corpus : list str) (w : str) :
  0 <= md -> w ∈ corpus ->
  exists (r : list Suggestion) (c' : Corrector),
    suggest (index_of (new md true m) corpus) w = Some (r, c') /\
    mkSuggestion w 0 0 ∈ r.
Proof.
  intros Hmd Hw. set (c := index_of (new md true m) corpus).
  destruct (index_of_kept_all md corpus [] (new md true m) (new_kept_all md m))
    as (Hcmd & Hka & _ & Hl).
  fold (first_occurrences corpus) in Hl. fold c in Hcmd, Hka, Hl.
  assert (Hown : exists rest, default [] (suggestions c !! w)
                              = mkSuggestion w 0 0 :: rest).
  { rewrite Hl. unfold heard.
    rewrite decide_True by (apply elem_of_first_occurrences; exact Hw).
    destruct (from_word_head w (first_occurrences corpus)) as [r ->];
      [apply elem_of_first_occurrences; exact Hw|].
    unfold producers. simpl. unfold variant_distance at 1.
    rewrite decide_True by reflexivity. simpl. eexists. reflexivity. }
  destruct Hown as [rest Hown].
  destruct (suggest_total c w) as (r & c' & Hs). exists r, c'.
  split; [exact Hs|]. unfold suggest in Hs.
  pose proof (weight_pos (length w)) as Hpos.
  destruct (weight (length w)) as [|n]; [lia|]. simpl in Hs.
  set (start := mkSuggestion w 1 0) in *.
  set (st1 := round c w start [] (mkSearch [] [start] [start] (suggestions c))) in *.
  assert (Hfirst : mkSuggestion w 0 0 ∈ found st1).
  { subst st1. rewrite found_round. unfold start. cbn [index found term].
    destruct (defaultdict_get_list (suggestions c) w) as (-> & _).
    rewrite Hown. cbn [fold_left]. apply fold_consider_keeps; [exact Hka|].
    unfold consider, found_distance, str_eqb. cbn [term].
    rewrite bool_decide_eq_true_2 by reflexivity. simpl negb. cbv iota.
    replace (Qle_bool (inject_Z (distance (mkSuggestion w 0 0)))
                      (inject_Z (max_distance c))) with true.
    - left.
    - symmetry. apply Qle_bool_iff. rewrite <- Zle_Qle. simpl. lia. }
  destruct (search n c w st1) as [st|] eqn:Hsearch; [|discriminate Hs].
  injection Hs as <- _. rewrite (sorted_perm (found st)).
  revert Hsearch Hfirst.
  intros Hsearch Hfirst.
  apply (search_invariant (fun st => mkSuggestion w 0 0 ∈ found st) c w)
    with (rounds := n) (st := st1); [|exact Hfirst | exact Hsearch].
  intros candidate rest0 st0 _ Hin. rewrite found_round.
  apply fold_consider_keeps; assumption.
Qed.

(** The theorem at the corpus ["hello", "hell"]. *)
Lemma own_word_witness :
  0 <= 2 /\ hell ∈ [hello; hell] /\
  exists (r : list Suggestion) (c' : Corrector),
    suggest (index_of (new 2 true wordmetric.edit_distance) [hello; hell]) hell
      = Some (r, c') /\
    mkSuggestion hell 0 0 ∈ r.
Proof.
  assert (H : hell ∈ [hello; hell]) by (right; left).
  split; [lia|]. split; [exact H|].
  apply (keep_all_suggests_own_word 2 wordmetric.edit_distance [hello; hell] hell);
    [lia | exact H].
Defined.

(** ** Normalisation of the words: [squash] and [lower] *)

Lemma groupby_grouped (w : str) :
  grouped (wordmetric.groupby w) /\
  concat (map snd (wordmetric.groupby w)) = w.
Proof.
  induction w as [|c rest [IHg IHc]]; simpl; [split; [exact I | reflexivity]|].
  destruct (wordmetric.groupby rest) as [|[k g] gs] eqn:Hg.
  - simpl in *. subst rest. split; [|reflexivity].
    split; [exists []; split; [reflexivity | constructor]|]. split; exact I.
  - destruct IHg as ((g' & Hgk & Hall) & Hnext & Hrest). simpl in Hgk. subst g.
    destruct (N.eqb_spec c k) as [->|Hne].
    + split.
      * split; [|split; assumption]. simpl.
        exists (k :: g'). split; [reflexivity|]. constructor; [reflexivity | exact Hall].
      * simpl in *. rewrite IHc. reflexivity.
    + split.
      * split; [exists []; split; [reflexivity | constructor]|].
        split; [simpl; congruence|].
        split; [exists g'; split; [reflexivity | exact Hall]|].
        split; assumption.
      * simpl in *. rewrite IHc. reflexivity.
Qed.

(** [squash], one character at a time: the first of three equal
    characters is dropped. *)
Lemma squash_cons (c : char) (rest : str) :
  wordmetric.squash (c :: rest)
  = match rest with
    | c1 :: c2 :: _ =>
        if N.eqb c c1 && N.eqb c1 c2 then wordmetric.squash rest
        else c :: wordmetric.squash rest
    | _ => c :: wordmetric.squash rest
    end.
Proof.
  unfold wordmetric.squash. simpl.
  destruct (groupby_grouped rest) as [Hgr Hcat].
  destruct (wordmetric.groupby rest) as [|[k g] gs] eqn:Hg.
  - simpl in Hcat. subst rest. reflexivity.
  - destruct Hgr as ((g' & Hgk & Hall) & Hnext & Hrest).
    cbn [fst snd] in Hgk, Hall, Hnext. subst g.
    simpl in Hcat. destruct (N.eqb_spec c k) as [->|Hne].
    + destruct g' as [|k' g''].
      * simpl in Hcat. subst rest.
        destruct gs as [|[k2 g2] gs2]; [reflexivity|].
        destruct Hrest as ((g2' & Hg2 & _) & _). cbn [fst snd] in Hg2, Hnext. subst g2.
        simpl. rewrite N.eqb_refl. simpl.
        destruct (N.eqb_spec k k2) as [He|_]; [congruence | reflexivity].
      * apply Forall_cons in Hall as [<- Hall]. subst rest. simpl.
        rewrite !N.eqb_refl. reflexivity.
    + subst rest. simpl.
      destruct (g' ++ concat (map snd gs)) as [|c2 r]; [reflexivity|].
      destruct (N.eqb_spec c k) as [He|_]; [congruence | reflexivity].
Qed.

Lemma squash_nil : wordmetric.squash [] = [].
Proof. reflexivity. Qed.

Lemma squash_take_2 (w : str) : take 2 (wordmetric.squash w) = take 2 w.
Proof.
  induction w as [|c rest IH]; [reflexivity|]. rewrite squash_cons.
  assert (Hone : take 1 (wordmetric.squash rest) = take 1 rest).
  { change 1%nat with (Nat.min 1 2). rewrite <- !take_take, IH. reflexivity. }
  destruct rest as [|c1 [|c2 r]]; try (simpl; f_equal; exact Hone).
  destruct (N.eqb_spec c c1) as [->|Hne]; simpl andb.
  - destruct (N.eqb_spec c1 c2) as [->|Hne].
    + exact IH.
    + simpl. f_equal. exact Hone.
  - simpl. f_equal. exact Hone.
Qed.

Lemma has_triple_cons (c : char) (rest : str) :
  has_triple (c :: rest)
  = match rest with
    | c1 :: c2 :: _ => (N.eqb c c1 && N.eqb c1 c2) || has_triple rest
    | _ => false
    end.
Proof. reflexivity. Qed.

Lemma take_2_cons_cons (w : str) (a b : char) (r : str) :
  take 2 w = take 2 (a :: b :: r) -> exists r', w = a :: b :: r'.
Proof.
  destruct w as [|x [|y r']]; simpl; intros H; try discriminate H.
  injection H as -> ->. eexists. reflexivity.
Qed.

Lemma take_2_short (w v : str) :
  take 2 w = take 2 v -> (length v < 2)%nat -> w = v.
Proof.
  destruct v as [|a [|b r]]; simpl; intros H Hl; try lia;
    destruct w as [|x [|y r']]; simpl in H; congruence.
Qed.

Lemma squash_no_triple (w : str) : has_triple (wordmetric.squash w) = false.
Proof.
  induction w as [|c rest IH]; [reflexivity|]. rewrite squash_cons.
  pose proof (squash_take_2 rest) as H2.
  assert (Hcons : forall b, (forall c1 c2 r, rest = c1 :: c2 :: r ->
                                N.eqb c c1 && N.eqb c1 c2 = b) ->
                   b = false ->
                   has_triple (c :: wordmetric.squash rest) = false).
  { intros b Hb ->. rewrite has_triple_cons.
    destruct (wordmetric.squash rest) as [|c1 [|c2 r]] eqn:Hs; try reflexivity.
    rewrite IH, orb_false_r.
    symmetry in H2. apply take_2_cons_cons in H2 as [r' ->].
    apply (Hb c1 c2 r' eq_refl). }
  destruct rest as [|c1 [|c2 r]].
  - reflexivity.
  - apply (Hcons false); [intros ? ? ? [=] | reflexivity].
  - destruct (N.eqb c c1 && N.eqb c1 c2) eqn:Hb; [exact IH|].
    apply (Hcons false); [|reflexivity]. intros ? ? ? [= <- <- _]. exact Hb.
Qed.

Lemma squash_sublist (w : str) : wordmetric.squash w `sublist_of` w.
Proof.
  induction w as [|c rest IH]; [reflexivity|]. rewrite squash_cons.
  destruct rest as [|c1 [|c2 r]]; try (apply sublist_skip; exact IH).
  destruct (N.eqb c c1 && N.eqb c1 c2).
  - apply sublist_cons. exact IH.
  - apply sublist_skip. exact IH.
Qed.

Lemma squash_fixed (w : str) :
  has_triple w = false -> wordmetric.squash w = w.
Proof.
  induction w as [|c rest IH]; [reflexivity|].
  rewrite has_triple_cons, squash_cons.
  destruct rest as [|c1 [|c2 r]].
  - reflexivity.
  - intros _. f_equal; apply IH; reflexivity.
  - intros H. apply orb_false_iff in H as [-> H]. f_equal; apply IH, H.
Qed.

Lemma squash_idempotent (w : str) :
  wordmetric.squash (wordmetric.squash w) = wordmetric.squash w.
Proof. apply squash_fixed, squash_no_triple. Qed.

(** [squash] only removes characters, keeps the first two, leaves no
    character three times in a row, and changes nothing when applied a
    second time. *)
Theorem squash_caps_runs (w : str) :
  has_triple (wordmetric.squash w) = false /\
  wordmetric.squash w `sublist_of` w /\
  take 2 (wordmetric.squash w) = take 2 w /\
  wordmetric.squash (wordmetric.squash w) = wordmetric.squash w.
Proof.
  split; [apply squash_no_triple|]. split; [apply squash_sublist|].
  split; [apply squash_take_2 | apply squash_idempotent].
Qed.

(** [squash] leaves a word unchanged when no character stands three
    times in a row in it. *)
Theorem squash_fixes_short_runs (w : str) :
  has_triple w = false -> wordmetric.squash w = w.
Proof. apply squash_fixed. Qed.

(** The theorem at the word of the docstring, "bookkeeper". *)
Lemma bookkeeper_witness :
  has_triple (py "bookkeeper") = false /\
  wordmetric.squash (py "bookkeeper") = py "bookkeeper".
Proof.
  split; [reflexivity|]. apply squash_fixes_short_runs. reflexivity.
Defined.

(** A run of three stays a run of three under a map of the characters,
    so squashing before the map shows no more after it. *)
Lemma squash_map_squash (f : char -> char) (w : str) :
  wordmetric.squash (map f (wordmetric.squash w)) = wordmetric.squash (map f w).
Proof.
  induction w as [|c rest IH]; [reflexivity|].
  assert (Hstep : wordmetric.squash (f c :: map f (wordmetric.squash rest))
                  = wordmetric.squash (f c :: map f rest)).
  { assert (H2 : take 2 (map f (wordmetric.squash rest)) = take 2 (map f rest)).
    { rewrite <- !fmap_take. change (list_fmap N N f) with (map f).
      rewrite squash_take_2. reflexivity. }
    rewrite !squash_cons, IH.
    destruct (map f (wordmetric.squash rest)) as [|a [|b r1]],
             (map f rest) as [|a' [|b' r2]];
      simpl in H2; try discriminate H2; try reflexivity;
      injection H2; intros; subst; reflexivity. }
  rewrite squash_cons. destruct rest as [|c1 [|c2 r]]; try exact Hstep.
  destruct (N.eqb_spec c c1) as [->|Hne]; simpl andb; [|exact Hstep].
  destruct (N.eqb_spec c1 c2) as [->|Hne]; [|exact Hstep].
  rewrite IH. simpl map.
  rewrite (squash_cons (f c2) (f c2 :: f c2 :: map f r)), !N.eqb_refl.
  reflexivity.
Qed.

Lemma lower_char_idempotent (c : char) :
  wordmetric.lower_char (wordmetric.lower_char c) = wordmetric.lower_char c.
Proof.
  unfold wordmetric.lower_char.
  destruct (N.leb_spec 65 c), (N.leb_spec c 90), (N.leb_spec 192 c),
           (N.leb_spec c 222), (N.eqb_spec c 215); simpl; try lia;
    repeat match goal with
           | |- context [(?a <=? ?b)%N] => destruct (N.leb_spec a b); simpl; try lia
           | |- context [(?a =? ?b)%N] => destruct (N.eqb_spec a b); simpl; try lia
           end; reflexivity.
Qed.

Lemma lower_idempotent (s : str) :
  wordmetric.lower (wordmetric.lower s) = wordmetric.lower s.
Proof.
  unfold wordmetric.lower. rewrite map_map. apply map_ext.
  intros c. apply lower_char_idempotent.
Qed.

(** Whatever the letter cost, for words of code points below 256 the
    distance of two words is that of their lower-case forms and that of
    their squashed forms: case and runs longer than two do not count, on
    either side. *)
Theorem edit_distance_ignores_case_and_runs (cost : char -> char -> Q) (s t : str) :
  latin1 s -> latin1 t ->
  wordmetric.edit_distance_with cost (wordmetric.lower s) t
    = wordmetric.edit_distance_with cost s t /\
  wordmetric.edit_distance_with cost s (wordmetric.lower t)
    = wordmetric.edit_distance_with cost s t /\
  wordmetric.edit_distance_with cost (wordmetric.squash s) t
    = wordmetric.edit_distance_with cost s t /\
  wordmetric.edit_distance_with cost s (wordmetric.squash t)
    = wordmetric.edit_distance_with cost s t.
Proof.
  intros _ _. unfold wordmetric.edit_distance_with. cbv zeta.
  rewrite !lower_idempotent. unfold wordmetric.lower.
  rewrite !squash_map_squash. repeat split; reflexivity.
Qed.

(** The theorem at "HELLOOO" and "hello", with the default letter cost. *)
Lemma case_and_runs_witness :
  latin1 (py "HELLOOO") /\ latin1 (py "hello") /\
  wordmetric.edit_distance_with wordmetric.letter_distance
    (wordmetric.squash (py "HELLOOO")) (py "hello")
  = wordmetric.edit_distance_with wordmetric.letter_distance
      (py "HELLOOO") (py "hello").
Proof.
  assert (Hs : latin1 (py "HELLOOO")) by (repeat constructor).
  assert (Ht : latin1 (py "hello")) by (repeat constructor).
  split; [exact Hs|]. split; [exact Ht|].
  apply (edit_distance_ignores_case_and_runs wordmetric.letter_distance
           (py "HELLOOO") (py "hello") Hs Ht).
Defined.

(** ** The distance table *)

Lemma fold_left_seq_invariant {A : Type} (I : nat -> A -> Prop)
    (f : A -> nat -> A) (len : nat) :
  forall (a : nat) (x : A),
    I a x ->
    (forall k x, (a <= k < a + len)%nat -> I k x -> I (S k) (f x k)) ->
    I (a + len)%nat (fold_left f (seq a len) x).
Proof.
  induction len as [|len IH]; intros a x Hx Hstep; simpl.
  - rewrite Nat.add_0_r. exact Hx.
  - replace (a + S len)%nat with (S a + len)%nat by lia. apply IH.
    + apply Hstep; [lia | exact Hx].
    + intros k y Hk. apply Hstep. lia.
Qed.

Lemma qn_S (k : nat) : (qn (S k) == qn k + 1)%Q.
Proof.
  unfold qn. rewrite Nat2Z.inj_succ, <- Z.add_1_r, inject_Z_plus. reflexivity.
Qed.

Lemma qn_le (a b : nat) : (a <= b)%nat -> (qn a <= qn b)%Q.
Proof. intros H. unfold qn. rewrite <- Zle_Qle. lia. Qed.

Lemma mget_mset_eq (d : wordmetric.matrix) (i j : nat) (v : Q) :
  (i < length d)%nat -> (j < length (nth i d []))%nat ->
  wordmetric.mget (wordmetric.mset d i j v) i j = v.
Proof.
  intros Hi Hj. unfold wordmetric.mget, wordmetric.mset, wordmetric.matrix in *.
  set (row := <[j:=v]> (nth i d [])).
  rewrite (nth_lookup (<[i:=row]> d) i), list_lookup_insert_eq by exact Hi.
  simpl. subst row.
  rewrite nth_lookup, list_lookup_insert_eq by exact Hj. reflexivity.
Qed.

Lemma mget_mset_ne (d : wordmetric.matrix) (i j i' j' : nat) (v : Q) :
  i <> i' \/ j <> j' ->
  wordmetric.mget (wordmetric.mset d i j v) i' j' = wordmetric.mget d i' j'.
Proof.
  intros Hne. unfold wordmetric.mget, wordmetric.mset, wordmetric.matrix in *.
  destruct (decide (i = i')) as [<-|Hi].
  - destruct Hne as [Hne|Hj]; [congruence|].
    destruct (decide (i < length d)%nat) as [Hlt|Hge].
    + set (row := <[j:=v]> (nth i d [])).
      rewrite (nth_lookup (<[i:=row]> d) i), list_lookup_insert_eq by exact Hlt.
      simpl. subst row.
      rewrite !(nth_lookup _ j'), list_lookup_insert_ne by exact Hj. reflexivity.
    + rewrite list_insert_ge by lia. reflexivity.
  - set (row := <[j:=v]> (nth i d [])).
    rewrite (nth_lookup (<[i:=row]> d) i'), (nth_lookup d i'),
      list_lookup_insert_ne by exact Hi.
    reflexivity.
Qed.

Lemma shaped_row (m n : nat) (d : wordmetric.matrix) (i : nat) :
  shaped m n d -> (i <= m)%nat -> length (nth i d []) = S n.
Proof.
  unfold wordmetric.matrix in *. intros [Hlen Hrows] Hi. rewrite nth_lookup.
  destruct (lookup_lt_is_Some_2 d i) as [row Hrow]; [lia|].
  rewrite Hrow. simpl. rewrite Forall_lookup in Hrows. apply (Hrows i row Hrow).
Qed.

Lemma mset_shaped (m n : nat) (d : wordmetric.matrix) (i j : nat) (v : Q) :
  shaped m n d -> shaped m n (wordmetric.mset d i j v).
Proof.
  intros Hd. pose proof Hd as [Hlen Hrows].
  unfold wordmetric.mset, wordmetric.matrix in *.
  destruct (decide (i < length d)%nat) as [Hlt|Hge].
  - split; [rewrite length_insert; exact Hlen|].
    apply Forall_insert; [exact Hrows|]. rewrite length_insert.
    apply (shaped_row m n d i Hd). lia.
  - rewrite list_insert_ge by lia. exact Hd.
Qed.

Lemma cell_mset (cost : char -> char -> Q) (s t : str)
    (d : wordmetric.matrix) (j i : nat) :
  wordmetric.cell cost s t d j i
  = wordmetric.mset d i j (cell_value cost s t d j i).
Proof.
  unfold wordmetric.cell, cell_value.
  destruct ((2 <=? i)%nat && (2 <=? j)%nat); reflexivity.
Qed.

(** An assignment to a cell that is no neighbour of [(i, j)] leaves the
    value due at [(i, j)] as it is. *)
Lemma cell_value_mset (cost : char -> char -> Q) (s t : str)
    (d : wordmetric.matrix) (i j k j0 : nat) (v : Q) :
  (1 <= i)%nat -> (1 <= j)%nat -> (1 <= k)%nat -> (1 <= j0)%nat ->
  (j < j0 \/ (j = j0 /\ i <= k))%nat ->
  cell_value cost s t (wordmetric.mset d k j0 v) j i = cell_value cost s t d j i.
Proof.
  intros Hi Hj Hk Hj0 Hfilled. unfold cell_value.
  rewrite !mget_mset_ne by lia. reflexivity.
Qed.

Section Table.
Variable cost : char -> char -> Q.
Variables s t : str.

(** The table after the two initialisation steps. *)
Lemma table_borders :
  let m := length s in
  let n := length t in
  let d0 := repeat (repeat 0%Q (n + 1)) (m + 1) in
  let d1 := <[0%nat := map (fun i => inject_Z (Z.of_nat i)) (seq 0 (n + 1))]> d0 in
  let d2 := fold_left (fun d i => wordmetric.mset d (i + 1) 0
                                    (wordmetric.mget d i 0 + 1)%Q) (seq 0 m) d1 in
  shaped m n d2 /\ recurrence cost s t (fun _ _ => False) d2.
Proof.
  intros m n d0 d1 d2.
  assert (Hd1 : shaped m n d1 /\
                forall j, (j <= n)%nat -> wordmetric.mget d1 0 j = qn j).
  { split; [split|].
    - subst d1 d0. rewrite length_insert, repeat_length. lia.
    - subst d1 d0. apply Forall_insert.
      + apply Forall_forall. intros row Hrow. apply list_elem_of_In in Hrow.
        apply repeat_spec in Hrow. subst row. rewrite repeat_length. lia.
      + rewrite length_map, length_seq. lia.
    - intros j Hj. subst d1 d0. unfold wordmetric.mget.
      set (row := map _ _).
      rewrite (nth_lookup (<[0%nat:=row]> _) 0), list_lookup_insert_eq
        by (rewrite repeat_length; lia).
      simpl. subst row. rewrite nth_lookup.
      change (map ?f ?l) with (f <$> l). rewrite list_lookup_fmap.
      rewrite lookup_seq_lt by lia. reflexivity. }
  destruct Hd1 as [Hs1 Hrow1].
  assert (Hinv : shaped m n d2 /\
                 (forall j, (j <= n)%nat -> wordmetric.mget d2 0 j = qn j) /\
                 (forall i, (i <= 0 + m)%nat -> (wordmetric.mget d2 i 0 == qn i)%Q)).
  { subst d2.
    apply (fold_left_seq_invariant
             (fun k d => shaped m n d /\
                         (forall j, (j <= n)%nat -> wordmetric.mget d 0 j = qn j) /\
                         (forall i, (i <= k)%nat -> (wordmetric.mget d i 0 == qn i)%Q))).
    - split; [exact Hs1|]. split; [exact Hrow1|].
      intros i Hi. replace i with 0%nat by lia. rewrite Hrow1 by lia. reflexivity.
    - intros k d Hk (Hs & Hrow & Hcol). split; [apply mset_shaped, Hs|]. split.
      + intros j Hj. rewrite mget_mset_ne by lia. apply Hrow, Hj.
      + intros i Hi. destruct (decide (i = S k)) as [->|Hne].
        * replace (k + 1)%nat with (S k) by lia.
          rewrite mget_mset_eq.
          -- rewrite qn_S, (Hcol k) by lia. reflexivity.
          -- destruct Hs as [Hlen _]. lia.
          -- rewrite (shaped_row m n d (S k) Hs) by lia. lia.
        * rewrite mget_mset_ne by lia. apply Hcol. lia. }
  destruct Hinv as (Hs2 & Hrow2 & Hcol2). split; [exact Hs2|].
  split; [exact Hrow2|]. split; [exact Hcol2|]. intros i j _ _ [].
Qed.

(** The finished table: its borders count up and every inner cell is
    what the loop body computes from the finished table. *)
Lemma table_recurrence :
  shaped (length s) (length t) (wordmetric.table cost s t) /\
  recurrence cost s t (fun _ _ => True) (wordmetric.table cost s t).
Proof.
  pose proof table_borders as Hb. cbv zeta in Hb.
  unfold wordmetric.table. cbv zeta.
  set (m := length s) in *. set (n := length t) in *.
  set (d2 := fold_left _ (seq 0 m) _) in *.
  destruct Hb as [Hs2 (Hrow2 & Hcol2 & _)].
  assert (Hout : shaped m n
                   (fold_left (fun d j => fold_left
                      (fun d i => wordmetric.cell cost s t d j i) (seq 1 m) d)
                      (seq 1 n) d2) /\
                 recurrence cost s t (fun i j => (j < 1 + n)%nat)
                   (fold_left (fun d j => fold_left
                      (fun d i => wordmetric.cell cost s t d j i) (seq 1 m) d)
                      (seq 1 n) d2)).
  { apply (fold_left_seq_invariant
             (fun j0 d => shaped m n d /\
                          recurrence cost s t (fun i j => (j < j0)%nat) d)).
    - split; [exact Hs2|]. split; [exact Hrow2|]. split; [exact Hcol2|].
      intros i j Hi Hj Hlt. lia.
    - intros j0 d Hj0 [Hs Hrec].
      assert (Hin : shaped m n
                      (fold_left (fun d i => wordmetric.cell cost s t d j0 i)
                                 (seq 1 m) d) /\
                    recurrence cost s t
                      (fun i j => (j < j0 \/ (j = j0 /\ i < 1 + m))%nat)
                      (fold_left (fun d i => wordmetric.cell cost s t d j0 i)
                                 (seq 1 m) d)).
      { apply (fold_left_seq_invariant
                 (fun k d => shaped m n d /\
                             recurrence cost s t
                               (fun i j => (j < j0 \/ (j = j0 /\ i < k))%nat) d)).
        - split; [exact Hs|]. destruct Hrec as (Hrow & Hcol & Hcell).
          split; [exact Hrow|]. split; [exact Hcol|].
          intros i j Hi Hj Hf. apply Hcell; [exact Hi | exact Hj | lia].
        - intros k d' Hk [Hs' (Hrow & Hcol & Hcell)]. rewrite cell_mset.
          split; [apply mset_shaped, Hs'|]. split; [|split].
          + intros j Hj. rewrite mget_mset_ne by lia. apply Hrow, Hj.
          + intros i Hi. rewrite mget_mset_ne by lia. apply Hcol, Hi.
          + intros i j Hi Hj Hf.
            rewrite cell_value_mset by lia.
            destruct (decide (i = k /\ j = j0)) as [[-> ->]|Hne].
            * apply mget_mset_eq.
              -- destruct Hs' as [Hlen _]. fold m in Hi. lia.
              -- rewrite (shaped_row m n d' k Hs') by (fold m in Hi; lia).
                 fold n in Hj. lia.
            * rewrite mget_mset_ne by lia. apply Hcell; [exact Hi | exact Hj | lia]. }
      destruct Hin as [Hs' (Hrow & Hcol & Hcell)]. split; [exact Hs'|].
      split; [exact Hrow|]. split; [exact Hcol|].
      intros i j Hi Hj Hf. apply Hcell; [exact Hi | exact Hj |].
      fold m in Hi. lia. }
  destruct Hout as [Hs' (Hrow & Hcol & Hcell)]. split; [exact Hs'|].
  split; [exact Hrow|]. split; [exact Hcol|].
  intros i j Hi Hj _. apply Hcell; [exact Hi | exact Hj |]. fold n in Hj. lia.
Qed.
End Table.

Lemma qmin_cases (a b : Q) :
  (wordmetric.qmin a b = a /\ (a <= b)%Q) \/
  (wordmetric.qmin a b = b /\ (b <= a)%Q).
Proof.
  unfold wordmetric.qmin. destruct (Qle_bool a b) eqn:H.
  - left. split; [reflexivity|]. apply Qle_bool_iff, H.
  - right. split; [reflexivity|].
    destruct (Qlt_le_dec b a) as [Hlt|Hle]; [apply Qlt_le_weak, Hlt|].
    apply Qle_bool_iff in Hle. congruence.
Qed.

(** Induction over the finished table along its recurrence: a property
    of the borders that the loop body carries from the cells above and to
    the left to the cell it assigns holds of every cell. *)
Lemma table_induction (cost : char -> char -> Q) (s t : str)
    (P : nat -> nat -> Q -> Prop) :
  (forall j, (j <= length t)%nat -> P 0%nat j (qn j)) ->
  (forall i v, (i <= length s)%nat -> (v == qn i)%Q -> P i 0%nat v) ->
  (forall i j d,
      (1 <= i <= length s)%nat -> (1 <= j <= length t)%nat ->
      (forall i' j', (i' <= i)%nat -> (j' <= j)%nat -> (i' < i \/ j' < j)%nat ->
                     P i' j' (wordmetric.mget d i' j')) ->
      P i j (cell_value cost s t d j i)) ->
  forall i j, (i <= length s)%nat -> (j <= length t)%nat ->
              P i j (wordmetric.mget (wordmetric.table cost s t) i j).
Proof.
  intros Hrow Hcol Hcell.
  destruct (table_recurrence cost s t) as [_ (Trow & Tcol & Tcell)].
  assert (H : forall k i j, (i + j < k)%nat ->
                (i <= length s)%nat -> (j <= length t)%nat ->
                P i j (wordmetric.mget (wordmetric.table cost s t) i j)).
  { induction k as [|k IH]; intros i j Hk Hi Hj; [lia|].
    destruct (decide (i = 0%nat)) as [->|Hi0].
    - rewrite Trow by exact Hj. apply Hrow, Hj.
    - destruct (decide (j = 0%nat)) as [->|Hj0].
      + apply Hcol; [exact Hi | apply Tcol, Hi].
      + rewrite Tcell by (exact I || lia). apply Hcell; [lia | lia |].
        intros i' j' Hi' Hj' Hlt. apply IH; lia. }
  intros i j. apply (H (S (i + j))). lia.
Qed.

(** ** Values of the metric *)

Section Cost.
Variable cost : char -> char -> Q.
Hypothesis cost_range : forall a b, (0 <= cost a b <= 1)%Q.
Hypothesis cost_zero : forall a b, (cost a b == 0)%Q <-> a = b.
Hypothesis cost_sym : forall a b, (cost a b == cost b a)%Q.

Lemma table_bounds (s t : str) (i j : nat) :
  (i <= length s)%nat -> (j <= length t)%nat ->
  let v := wordmetric.mget (wordmetric.table cost s t) i j in
  (qn i - qn j <= v)%Q /\ (qn j - qn i <= v)%Q /\ (v <= qn (Nat.max i j))%Q.
Proof.
  intros Hi Hj. cbv zeta. revert i j Hi Hj.
  apply (table_induction cost s t
           (fun i j v => (qn i - qn j <= v)%Q /\ (qn j - qn i <= v)%Q
                         /\ (v <= qn (Nat.max i j))%Q)).
  - intros j _. simpl Nat.max. pose proof (qn_le 0 j ltac:(lia)).
    change (qn 0) with 0%Q in *. repeat split; lra.
  - intros i v _ Hv. rewrite Nat.max_0_r. pose proof (qn_le 0 i ltac:(lia)).
    change (qn 0) with 0%Q in *. repeat split; lra.
  - intros i j d Hi Hj IH.
    destruct i as [|i]; [lia|]. destruct j as [|j]; [lia|].
    pose proof (IH i j ltac:(lia) ltac:(lia) ltac:(lia)) as (Ha1 & Ha2 & Ha3).
    pose proof (IH i (S j) ltac:(lia) ltac:(lia) ltac:(lia)) as (Hb1 & Hb2 & _).
    pose proof (IH (S i) j ltac:(lia) ltac:(lia) ltac:(lia)) as (Hc1 & Hc2 & _).
    pose proof (IH (i - 1)%nat (j - 1)%nat ltac:(lia) ltac:(lia) ltac:(lia))
      as (Hd1 & Hd2 & _).
    pose proof (qn_S i) as Hqi. pose proof (qn_S j) as Hqj.
    assert (Hmax : (qn (Nat.max (S i) (S j)) == qn (Nat.max i j) + 1)%Q)
      by (rewrite <- Nat.succ_max_distr; apply qn_S).
    unfold cell_value.
    replace (S i - 1)%nat with i by lia. replace (S j - 1)%nat with j by lia.
    replace (S i - 2)%nat with (i - 1)%nat by lia.
    replace (S j - 2)%nat with (j - 1)%nat by lia.
    pose proof (cost_range (wordmetric.char_at s i) (wordmetric.char_at t j)).
    set (rep := (wordmetric.mget d i j + _)%Q).
    set (del := (wordmetric.mget d i (S j) + 1)%Q).
    set (ins := (wordmetric.mget d (S i) j + 1)%Q).
    assert (Hrep : (qn (S i) - qn (S j) <= rep)%Q /\ (qn (S j) - qn (S i) <= rep)%Q
                   /\ (rep <= qn (Nat.max (S i) (S j)))%Q)
      by (subst rep; repeat split; lra).
    assert (Hdel : (qn (S i) - qn (S j) <= del)%Q /\ (qn (S j) - qn (S i) <= del)%Q)
      by (subst del; split; lra).
    assert (Hins : (qn (S i) - qn (S j) <= ins)%Q /\ (qn (S j) - qn (S i) <= ins)%Q)
      by (subst ins; split; lra).
    destruct (qmin_cases rep del) as [[E1 L1]|[E1 L1]],
             (qmin_cases (wordmetric.qmin rep del) ins) as [[E2 L2]|[E2 L2]];
      rewrite ?E1 in *.
    all: destruct ((2 <=? S i)%nat && (2 <=? S j)%nat) eqn:H2.
    all: try (rewrite E2, ?E1; repeat split; lra).
    all: apply andb_true_iff in H2 as [H2i H2j];
      apply Nat.leb_le in H2i, H2j.
    all: pose proof (cost_range (wordmetric.char_at s (i - 1))
                                (wordmetric.char_at t j));
      pose proof (cost_range (wordmetric.char_at s i)
                             (wordmetric.char_at t (j - 1)));
      pose proof (qn_S (i - 1)) as Hqi'; pose proof (qn_S (j - 1)) as Hqj';
      replace (S (i - 1)) with i in Hqi' by lia;
      replace (S (j - 1)) with j in Hqj' by lia.
    all: match goal with
         | |- context [wordmetric.qmin ?x ?y] =>
             destruct (qmin_cases x y) as [[E3 L3]|[E3 L3]]; rewrite E3
         end.
    all: rewrite ?E2, ?E1 in *; repeat split; lra.
Qed.
End Cost.

Lemma qmin_le_l (a b : Q) : (wordmetric.qmin a b <= a)%Q.
Proof. destruct (qmin_cases a b) as [[-> H]|[-> H]]; lra. Qed.

Lemma qmin_le_r (a b : Q) : (wordmetric.qmin a b <= b)%Q.
Proof. destruct (qmin_cases a b) as [[-> H]|[-> H]]; lra. Qed.

Lemma qmin_either (a b : Q) :
  wordmetric.qmin a b = a \/ wordmetric.qmin a b = b.
Proof. destruct (qmin_cases a b) as [[-> _]|[-> _]]; tauto. Qed.

(** The value assigned to a cell is the least of the costs of a
    replacement, a deletion, an insertion and, from the second row and
    column on, a swap; it is one of them. *)
Lemma cell_value_spec (cost : char -> char -> Q) (s t : str)
    (d : wordmetric.matrix) (j i : nat) :
  let rep := (wordmetric.mget d (i - 1) (j - 1)
              + cost (wordmetric.char_at s (i - 1)) (wordmetric.char_at t (j - 1)))%Q in
  let del := (wordmetric.mget d (i - 1) j + 1)%Q in
  let ins := (wordmetric.mget d i (j - 1) + 1)%Q in
  let swap := (wordmetric.mget d (i - 2) (j - 2)
               + cost (wordmetric.char_at s (i - 2)) (wordmetric.char_at t (j - 1))
               + cost (wordmetric.char_at s (i - 1)) (wordmetric.char_at t (j - 2))
               + 1)%Q in
  let v := cell_value cost s t d j i in
  (v <= rep)%Q /\ (v <= del)%Q /\ (v <= ins)%Q /\
  ((2 <= i)%nat -> (2 <= j)%nat -> (v <= swap)%Q) /\
  (v = rep \/ v = del \/ v = ins \/ ((2 <= i)%nat /\ (2 <= j)%nat /\ v = swap)).
Proof.
  cbv zeta. unfold cell_value.
  set (rep := (wordmetric.mget d (i - 1) (j - 1) + _)%Q).
  set (del := (wordmetric.mget d (i - 1) j + 1)%Q).
  set (ins := (wordmetric.mget d i (j - 1) + 1)%Q).
  set (swap := (wordmetric.mget d (i - 2) (j - 2) + _ + _ + 1)%Q).
  pose proof (qmin_le_l rep del). pose proof (qmin_le_r rep del).
  pose proof (qmin_le_l (wordmetric.qmin rep del) ins).
  pose proof (qmin_le_r (wordmetric.qmin rep del) ins).
  pose proof (qmin_le_l (wordmetric.qmin (wordmetric.qmin rep del) ins) swap).
  pose proof (qmin_le_r (wordmetric.qmin (wordmetric.qmin rep del) ins) swap).
  assert (Hthree : wordmetric.qmin (wordmetric.qmin rep del) ins = rep
               \/ wordmetric.qmin (wordmetric.qmin rep del) ins = del
               \/ wordmetric.qmin (wordmetric.qmin rep del) ins = ins).
  { destruct (qmin_either (wordmetric.qmin rep del) ins) as [->| ->]; [|tauto].
    destruct (qmin_either rep del) as [->| ->]; tauto. }
  destruct ((2 <=? i)%nat && (2 <=? j)%nat) eqn:Hboth.
  - apply andb_true_iff in Hboth as [H2i H2j]. apply Nat.leb_le in H2i, H2j.
    repeat split; try lra.
    destruct (qmin_either (wordmetric.qmin (wordmetric.qmin rep del) ins) swap)
      as [->| ->]; [|tauto].
    destruct Hthree as [->|[->| ->]]; tauto.
  - repeat split; try lra.
    + intros Hi Hj. apply andb_false_iff in Hboth as [Hb|Hb];
        apply Nat.leb_gt in Hb; lia.
    + destruct Hthree as [->|[->| ->]]; tauto.
Qed.

Lemma take_S_char_at (s : str) (i : nat) :
  (i < length s)%nat -> take (S i) s = take i s ++ [wordmetric.char_at s i].
Proof.
  intros Hi. destruct (lookup_lt_is_Some_2 s i Hi) as [x Hx].
  unfold wordmetric.char_at. rewrite nth_lookup, Hx. simpl.
  apply take_S_r, Hx.
Qed.

Lemma qn_zero (k : nat) : (qn k == 0)%Q <-> k = 0%nat.
Proof.
  unfold qn. split.
  - intros H. unfold Qeq in H. simpl in H. lia.
  - intros ->. reflexivity.
Qed.

Section Cost0.
Variable cost : char -> char -> Q.
Hypothesis cost_nonneg : forall a b, (0 <= cost a b)%Q.
Hypothesis cost_zero : forall a b, (cost a b == 0)%Q <-> a = b.

(** A cell is never negative, and it is 0 exactly at a cell of the
    diagonal up to which the two words are equal. *)
Lemma table_zero (s t : str) (i j : nat) :
  (i <= length s)%nat -> (j <= length t)%nat ->
  let v := wordmetric.mget (wordmetric.table cost s t) i j in
  (0 <= v)%Q /\ ((v == 0)%Q <-> i = j /\ take i s = take j t).
Proof.
  intros Hi Hj. cbv zeta. revert i j Hi Hj.
  apply (table_induction cost s t
           (fun i j v => (0 <= v)%Q /\
                         ((v == 0)%Q <-> i = j /\ take i s = take j t))).
  - intros j _. pose proof (qn_le 0 j ltac:(lia)) as H0.
    change (qn 0) with 0%Q in H0. split; [exact H0|].
    rewrite qn_zero. split.
    + intros ->. split; reflexivity.
    + intros [<- _]. reflexivity.
  - intros i v _ Hv. pose proof (qn_le 0 i ltac:(lia)) as H0.
    change (qn 0) with 0%Q in H0. split; [lra|].
    rewrite Hv, qn_zero. split.
    + intros ->. split; reflexivity.
    + intros [-> _]. reflexivity.
  - intros i j d Hi Hj IH.
    destruct i as [|i]; [lia|]. destruct j as [|j]; [lia|].
    pose proof (IH i j ltac:(lia) ltac:(lia) ltac:(lia)) as (Ha & Haz).
    pose proof (IH i (S j) ltac:(lia) ltac:(lia) ltac:(lia)) as (Hb & _).
    pose proof (IH (S i) j ltac:(lia) ltac:(lia) ltac:(lia)) as (Hc & _).
    pose proof (IH (i - 1)%nat (j - 1)%nat ltac:(lia) ltac:(lia) ltac:(lia))
      as (Hd & _).
    pose proof (cell_value_spec cost s t d (S j) (S i)) as Hspec.
    cbv zeta in Hspec.
    replace (S i - 1)%nat with i in Hspec by lia.
    replace (S j - 1)%nat with j in Hspec by lia.
    replace (S i - 2)%nat with (i - 1)%nat in Hspec by lia.
    replace (S j - 2)%nat with (j - 1)%nat in Hspec by lia.
    destruct Hspec as (Lrep & Ldel & Lins & Lswap & Hone).
    pose proof (cost_nonneg (wordmetric.char_at s i) (wordmetric.char_at t j)) as Hc0.
    pose proof (cost_nonneg (wordmetric.char_at s (i - 1)) (wordmetric.char_at t j)).
    pose proof (cost_nonneg (wordmetric.char_at s i) (wordmetric.char_at t (j - 1))).
    rewrite !take_S_char_at by lia.
    split; [destruct Hone as [->|[->|[->|(_ & _ & ->)]]]; lra|]. split.
    + intros Hv.
      destruct Hone as [E|[E|[E|(_ & _ & E)]]]; rewrite E in Hv; try lra.
      assert (Haz' : (wordmetric.mget d i j == 0)%Q) by lra.
      assert (Hcz : (cost (wordmetric.char_at s i) (wordmetric.char_at t j) == 0)%Q)
        by lra.
      apply Haz in Haz' as [-> Htake]. apply cost_zero in Hcz.
      split; [reflexivity|]. rewrite Htake, Hcz. reflexivity.
    + intros [Hij Htake]. injection Hij as ->.
      apply app_inj_tail in Htake as [Htake Hch].
      assert (Haz' : (wordmetric.mget d j j == 0)%Q) by (apply Haz; tauto).
      assert (Hcz : (cost (wordmetric.char_at s j) (wordmetric.char_at t j) == 0)%Q)
        by (apply cost_zero; exact Hch).
      assert (Hge : (0 <= cell_value cost s t d (S j) (S j))%Q)
        by (destruct Hone as [->|[->|[->|(_ & _ & ->)]]]; lra).
      lra.
Qed.
End Cost0.

Section CostSym.
Variable cost : char -> char -> Q.
Hypothesis cost_sym : forall a b, (cost a b == cost b a)%Q.

(** The table of [(s, t)] is the transpose of the table of [(t, s)]. *)
Lemma table_sym (s t : str) (i j : nat) :
  (i <= length s)%nat -> (j <= length t)%nat ->
  (wordmetric.mget (wordmetric.table cost s t) i j
   == wordmetric.mget (wordmetric.table cost t s) j i)%Q.
Proof.
  destruct (table_recurrence cost t s) as [_ (Trow & Tcol & Tcell)].
  revert i j.
  apply (table_induction cost s t
           (fun i j v => (v == wordmetric.mget (wordmetric.table cost t s) j i)%Q)).
  - intros j Hj. rewrite (Tcol j Hj). reflexivity.
  - intros i v Hi Hv. rewrite (Trow i Hi). exact Hv.
  - intros i j d Hi Hj IH.
    rewrite (Tcell j i) by (exact I || lia).
    pose proof (cell_value_spec cost s t d j i) as Hv.
    pose proof (cell_value_spec cost t s (wordmetric.table cost t s) i j) as Hv'.
    cbv zeta in Hv, Hv'.
    destruct Hv as (Lrep & Ldel & Lins & Lswap & Hone).
    destruct Hv' as (Lrep' & Ldel' & Lins' & Lswap' & Hone').
    pose proof (IH (i - 1)%nat (j - 1)%nat ltac:(lia) ltac:(lia) ltac:(lia)) as Ha.
    pose proof (IH (i - 1)%nat j ltac:(lia) ltac:(lia) ltac:(lia)) as Hb.
    pose proof (IH i (j - 1)%nat ltac:(lia) ltac:(lia) ltac:(lia)) as Hc.
    pose proof (IH (i - 2)%nat (j - 2)%nat ltac:(lia) ltac:(lia) ltac:(lia)) as Hd.
    pose proof (cost_sym (wordmetric.char_at s (i - 1)) (wordmetric.char_at t (j - 1))).
    pose proof (cost_sym (wordmetric.char_at s (i - 2)) (wordmetric.char_at t (j - 1))).
    pose proof (cost_sym (wordmetric.char_at s (i - 1)) (wordmetric.char_at t (j - 2))).
    apply Qle_antisym.
    + destruct Hone' as [E|[E|[E|(H2j & H2i & E)]]]; rewrite E;
        [| | |specialize (Lswap H2i H2j)]; lra.
    + destruct Hone as [E|[E|[E|(H2i & H2j & E)]]]; rewrite E;
        [| | |specialize (Lswap' H2j H2i)]; lra.
Qed.
End CostSym.

(** *** The letter distance of [LevehnsteinDistance] *)

Lemma pair_in_sym (a b : char) (ps : list (char * char)) :
  wordmetric.pair_in a b ps = wordmetric.pair_in b a ps.
Proof.
  unfold wordmetric.pair_in. induction ps as [|p ps IH]; simpl; [reflexivity|].
  rewrite IH. f_equal.
  rewrite orb_comm, (andb_comm (N.eqb a (snd p))), (andb_comm (N.eqb a (fst p))).
  reflexivity.
Qed.

Lemma letter_distance_range (a b : char) :
  (0 <= wordmetric.letter_distance a b <= 1)%Q.
Proof.
  unfold wordmetric.letter_distance.
  destruct (N.eqb a b); [lra|]. destruct (wordmetric.pair_in a b _); lra.
Qed.

Lemma letter_distance_zero (a b : char) :
  (wordmetric.letter_distance a b == 0)%Q <-> a = b.
Proof.
  unfold wordmetric.letter_distance.
  destruct (N.eqb_spec a b) as [->|Hne]; [split; intros; reflexivity|].
  split; [|tauto]. destruct (wordmetric.pair_in a b _); intros H; discriminate H.
Qed.

Lemma letter_distance_swap (a b : char) :
  wordmetric.letter_distance a b = wordmetric.letter_distance b a.
Proof.
  unfold wordmetric.letter_distance.
  rewrite (N.eqb_sym b a), (pair_in_sym b a). reflexivity.
Qed.

Lemma letter_distance_sym (a b : char) :
  (wordmetric.letter_distance a b == wordmetric.letter_distance b a)%Q.
Proof. rewrite (letter_distance_swap a b). reflexivity. Qed.

(** The distance of two letters is 0 exactly when they are equal, and
    otherwise 1/10 or 1; it does not depend on their order. *)
Theorem letter_distance_values (a b : char) :
  wordmetric.letter_distance a b = wordmetric.letter_distance b a /\
  (wordmetric.letter_distance a b == 0 <-> a = b)%Q /\
  (a <> b ->
   wordmetric.letter_distance a b = (1 # 10)%Q
   \/ wordmetric.letter_distance a b = 1%Q).
Proof.
  split; [apply letter_distance_swap|]. split; [apply letter_distance_zero|].
  unfold wordmetric.letter_distance.
  intros Hne. destruct (N.eqb_spec a b) as [->|_]; [congruence|].
  destruct (wordmetric.pair_in a b _); tauto.
Qed.

(** *** The distance of two words *)

Lemma distance_bounds_Z (a b : nat) (v : Q) :
  (qn a - qn b <= v)%Q -> (qn b - qn a <= v)%Q -> (v <= qn (Nat.max a b))%Q ->
  (inject_Z (Z.abs (Z.of_nat a - Z.of_nat b)) <= v
   <= inject_Z (Z.max (Z.of_nat a) (Z.of_nat b)))%Q.
Proof.
  unfold qn. intros H1 H2 H3. rewrite Nat2Z.inj_max in H3. split; [|exact H3].
  destruct (Z.abs_spec (Z.of_nat a - Z.of_nat b)) as [[_ ->]|[_ ->]].
  - unfold Z.sub. rewrite inject_Z_plus, inject_Z_opp. lra.
  - replace (- (Z.of_nat a - Z.of_nat b)) with (Z.of_nat b + - Z.of_nat a) by lia.
    rewrite inject_Z_plus, inject_Z_opp. lra.
Qed.

(** The distance of two words lies between the difference of the lengths
    of their normalised forms and the greater of the two lengths. *)
Theorem edit_distance_bounds (s t : str) :
  let a := Z.of_nat (length (wordmetric.squash (wordmetric.lower s))) in
  let b := Z.of_nat (length (wordmetric.squash (wordmetric.lower t))) in
  (inject_Z (Z.abs (a - b)) <= wordmetric.edit_distance s t
   <= inject_Z (Z.max a b))%Q.
Proof.
  cbv zeta. unfold wordmetric.edit_distance, wordmetric.edit_distance_with.
  cbv zeta.
  destruct (table_bounds wordmetric.letter_distance letter_distance_range
              (wordmetric.squash (wordmetric.lower s))
              (wordmetric.squash (wordmetric.lower t))
              (length (wordmetric.squash (wordmetric.lower s)))
              (length (wordmetric.squash (wordmetric.lower t))))
    as (H1 & H2 & H3); [lia | lia |].
  apply distance_bounds_Z; assumption.
Qed.

(** The distance of two words is 0 exactly when their normalised forms
    (lower case, runs cut to two) are the same string; in particular the
    distance of a word to itself is 0. *)
Theorem edit_distance_zero (s t : str) :
  (wordmetric.edit_distance s t == 0)%Q
  <-> wordmetric.squash (wordmetric.lower s)
      = wordmetric.squash (wordmetric.lower t).
Proof.
  unfold wordmetric.edit_distance, wordmetric.edit_distance_with. cbv zeta.
  set (s' := wordmetric.squash (wordmetric.lower s)).
  set (t' := wordmetric.squash (wordmetric.lower t)).
  destruct (table_zero wordmetric.letter_distance
              (fun a b => proj1 (letter_distance_range a b)) letter_distance_zero
              s' t' (length s') (length t')) as [_ Hz]; [lia | lia |].
  rewrite Hz, !firstn_all. split.
  - tauto.
  - intros ->. tauto.
Qed.

(** The distance does not depend on the order of the two words. *)
Theorem edit_distance_symmetric (s t : str) :
  (wordmetric.edit_distance s t == wordmetric.edit_distance t s)%Q.
Proof.
  unfold wordmetric.edit_distance, wordmetric.edit_distance_with. cbv zeta.
  apply (table_sym wordmetric.letter_distance letter_distance_sym); lia.
Qed.

(** Against the empty string the distance is the length of the
    normalised form of the other word. *)
Theorem edit_distance_empty (s : str) :
  (wordmetric.edit_distance s []
   == inject_Z (Z.of_nat (length (wordmetric.squash (wordmetric.lower s)))))%Q /\
  (wordmetric.edit_distance [] s
   == inject_Z (Z.of_nat (length (wordmetric.squash (wordmetric.lower s)))))%Q.
Proof.
  unfold wordmetric.edit_distance, wordmetric.edit_distance_with. cbv zeta.
  change (wordmetric.squash (wordmetric.lower [])) with (@nil N).
  set (s' := wordmetric.squash (wordmetric.lower s)). split.
  - destruct (table_recurrence wordmetric.letter_distance s' [])
      as [_ (_ & Tcol & _)].
    apply (Tcol (length s')). lia.
  - destruct (table_recurrence wordmetric.letter_distance [] s')
      as [_ (Trow & _ & _)].
    change (length (@nil N)) with 0%nat.
    rewrite (Trow (length s')) by lia. reflexivity.
Qed.

(** ** The keyboard-aware metric *)

Lemma link_typo_table (dist : gmap (option char * option char) Q)
    (current : char) (other : option char) :
  typo_table dist -> typo_table (wordmetric.link dist current other).
Proof.
  intros [Hsym Hval]. unfold wordmetric.link. split.
  - intros a b. rewrite !lookup_insert.
    repeat case_decide; simplify_eq; try reflexivity; try congruence;
      try apply Hsym.
  - intros k v. rewrite !lookup_insert.
    repeat case_decide; intros Hk; simplify_eq; try reflexivity;
      try apply (Hval k v Hk).
Qed.

Lemma visit_typo_table (dist : gmap (option char * option char) Q) (y x : nat) :
  typo_table dist -> typo_table (wordmetric.visit dist y x).
Proof.
  intros Hd. unfold wordmetric.visit.
  destruct (wordmetric.key_at y x) as [current|]; [|exact Hd]. cbv zeta.
  repeat match goal with
         | |- typo_table (if ?b then _ else _) => destruct b
         | |- typo_table (wordmetric.link _ _ _) => apply link_typo_table
         end; exact Hd.
Qed.

Lemma build_typo_table : typo_table wordmetric.build_distance_dictionary.
Proof.
  unfold wordmetric.build_distance_dictionary.
  apply (fold_left_invariant _ typo_table).
  - split; [intros a b; rewrite !lookup_empty; reflexivity|].
    intros k v Hk. rewrite lookup_empty in Hk. discriminate Hk.
  - intros dist y _ Hd. apply (fold_left_invariant _ typo_table); [exact Hd|].
    intros dist' x _. apply visit_typo_table.
Qed.

(** The read of [dist_dict] by [letter_distance] may bind an absent pair
    to the default, and no later [letter_distance] sees it. *)
Theorem typo_read_keeps_values (dist : gmap (option char * option char) Q)
    (a b a' b' : char) :
  wordmetric.typo_letter_distance
    (snd (wordmetric.typo_letter_distance_read dist a b)) a' b'
  = wordmetric.typo_letter_distance dist a' b'.
Proof.
  unfold wordmetric.typo_letter_distance, wordmetric.typo_letter_distance_read.
  destruct (N.eqb a b); [reflexivity|].
  destruct (dist !! (Some a, Some b)) as [v|] eqn:Hk; [reflexivity|]. simpl.
  destruct (N.eqb a' b'); [reflexivity|].
  destruct (decide ((Some a, Some b) = (Some a', Some b'))) as [He|Hne].
  - rewrite <- He, lookup_insert_eq, Hk. reflexivity.
  - rewrite lookup_insert_ne by exact Hne.
    destruct (dist !! (Some a', Some b')); reflexivity.
Qed.

Lemma typo_letter_distance_cases (a b : char) :
  let d := wordmetric.typo_letter_distance wordmetric.build_distance_dictionary in
  d a b = d b a /\
  (a = b /\ d a b = 0%Q
   \/ a <> b /\ (d a b = wordmetric.typo_value \/ d a b = 1%Q)).
Proof.
  cbv zeta. destruct build_typo_table as [Hsym Hval].
  unfold wordmetric.typo_letter_distance, wordmetric.typo_letter_distance_read.
  rewrite (N.eqb_sym b a), (Hsym (Some b) (Some a)).
  destruct (N.eqb_spec a b) as [->|Hne].
  - split; [reflexivity|]. left. split; reflexivity.
  - destruct (wordmetric.build_distance_dictionary !! (Some a, Some b))
      as [v|] eqn:Hk; simpl.
    + split; [reflexivity|]. right. split; [exact Hne|]. left.
      apply (Hval _ _ Hk).
    + split; [reflexivity|]. right. split; [exact Hne|]. right. reflexivity.
Qed.

(** The keyboard-aware letter distance does not depend on the order of
    the two letters, is 0 exactly when they are equal and otherwise 0.8
    or 1; it is 0.8 between "a" and "s" and 1 between "a" and "p". *)
Theorem typo_letter_values :
  let d := wordmetric.typo_letter_distance wordmetric.build_distance_dictionary in
  (forall a b : char,
      d a b = d b a /\
      ((d a b == 0)%Q <-> a = b) /\
      (a <> b -> d a b = (8 # 10)%Q \/ d a b = 1%Q)) /\
  d 97%N 115%N = (8 # 10)%Q /\
  d 97%N 112%N = 1%Q.
Proof.
  cbv zeta. split; [|split; vm_compute; reflexivity].
  intros a b. destruct (typo_letter_distance_cases a b) as [Hs Hc].
  cbv zeta in Hs, Hc. split; [exact Hs|]. split.
  - destruct Hc as [[-> ->]|[Hne [-> | ->]]].
    + split; intros; reflexivity.
    + split; [intros H; discriminate H | tauto].
    + split; [intros H; discriminate H | tauto].
  - intros Hne. destruct Hc as [[He _]|[_ Hv]]; [congruence | exact Hv].
Qed.

(** The keyboard-aware distance of two words does not depend on their
    order, is 0 exactly when their normalised forms are the same string,
    and lies between the difference and the greater of the lengths of the
    normalised forms. *)
Theorem typo_edit_distance_values (s t : str) :
  let a := Z.of_nat (length (wordmetric.squash (wordmetric.lower s))) in
  let b := Z.of_nat (length (wordmetric.squash (wordmetric.lower t))) in
  (wordmetric.typo_edit_distance s t == wordmetric.typo_edit_distance t s)%Q /\
  ((wordmetric.typo_edit_distance s t == 0)%Q
   <-> wordmetric.squash (wordmetric.lower s)
       = wordmetric.squash (wordmetric.lower t)) /\
  (inject_Z (Z.abs (a - b)) <= wordmetric.typo_edit_distance s t
   <= inject_Z (Z.max a b))%Q.
Proof.
  cbv zeta. unfold wordmetric.typo_edit_distance, wordmetric.edit_distance_with.
  cbv zeta.
  set (s' := wordmetric.squash (wordmetric.lower s)).
  set (t' := wordmetric.squash (wordmetric.lower t)).
  set (cost := wordmetric.typo_letter_distance wordmetric.build_distance_dictionary).
  assert (Hrange : forall x y, (0 <= cost x y <= 1)%Q).
  { intros x y. destruct (typo_letter_distance_cases x y) as [_ Hc].
    cbv zeta in Hc. fold cost in Hc.
    destruct Hc as [[_ ->]|[_ [-> | ->]]]; unfold wordmetric.typo_value; lra. }
  assert (Hzero : forall x y, (cost x y == 0)%Q <-> x = y).
  { intros x y. destruct (typo_letter_distance_cases x y) as [_ Hc].
    cbv zeta in Hc. fold cost in Hc.
    destruct Hc as [[-> ->]|[Hne [-> | ->]]].
    - split; intros; reflexivity.
    - split; [intros H; discriminate H | tauto].
    - split; [intros H; discriminate H | tauto]. }
  assert (Hsym : forall x y, (cost x y == cost y x)%Q).
  { intros x y. destruct (typo_letter_distance_cases x y) as [Hs _].
    cbv zeta in Hs. fold cost in Hs. rewrite Hs. reflexivity. }
  split; [|split].
  - apply (table_sym cost Hsym); lia.
  - destruct (table_zero cost (fun x y => proj1 (Hrange x y)) Hzero
                s' t' (length s') (length t')) as [_ Hz]; [lia | lia |].
    rewrite Hz, !firstn_all. split; [tauto | intros ->; tauto].
  - destruct (table_bounds cost Hrange s' t' (length s') (length t'))
      as (H1 & H2 & H3); [lia | lia |].
    apply distance_bounds_Z; assumption.
Qed.

(** ** Queries after queries *)

Lemma reads_extends (a b : gmap str (list Suggestion)) (k : str) :
  index_extends a b -> default [] (b !! k) = default [] (a !! k).
Proof. intros Hab. destruct (Hab k) as [->|[-> ->]]; reflexivity. Qed.

Lemma round_same (c : Corrector) (idx : gmap str (list Suggestion))
    (word : str) (candidate : Suggestion) (rest : list Suggestion)
    (st1 st2 : Search) :
  candidates st1 = candidate :: rest ->
  same_search st1 st2 ->
  same_search (round (with_index c idx) word candidate rest st1)
              (round c word candidate rest st2).
Proof.
  intros Hq (Hf & Hc & Hs & Hi).
  destruct (defaultdict_get_list (index st1) (term candidate)) as (Hl1 & He1 & _).
  destruct (defaultdict_get_list (index st2) (term candidate)) as (Hl2 & He2 & _).
  split; [|split; [|split]].
  - rewrite !found_round, Hl1, Hl2, Hi, Hf. reflexivity.
  - rewrite !candidates_round, Hs. reflexivity.
  - unfold round.
    destruct (defaultdict_get (index st1) _ _), (defaultdict_get (index st2) _ _).
    cbn [max_distance with_index]. rewrite Hs.
    destruct (distance candidate <? max_distance c); [|reflexivity].
    destruct (fold_left enqueue _ _). reflexivity.
  - intros k. rewrite !index_round.
    rewrite (reads_extends _ _ k He1), (reads_extends _ _ k He2). apply Hi.
Qed.

Lemma search_same (c : Corrector) (idx : gmap str (list Suggestion)) (word : str) :
  forall (rounds : nat) (st1 st2 : Search),
    same_search st1 st2 ->
    match search rounds (with_index c idx) word st1, search rounds c word st2 with
    | Some a, Some b => same_search a b
    | None, None => True
    | _, _ => False
    end.
Proof.
  induction rounds as [|rounds IH]; intros st1 st2 Hsame;
    pose proof Hsame as (_ & Hc & _); simpl; rewrite <- Hc;
    destruct (candidates st1) as [|x q] eqn:Hq; try exact Hsame; [exact I|].
  apply IH. apply round_same; assumption.
Qed.

(** A query does not show in later queries: after [suggest(w1)], every
    [suggest(w2)] and [correct(w2)] returns what it would have returned
    before. *)
Theorem queries_do_not_interfere (c : Corrector) (w1 : str)
    (r1 : list Suggestion) (c1 : Corrector) (w2 : str) :
  suggest c w1 = Some (r1, c1) ->
  suggested c1 w2 = suggested c w2 /\ corrected c1 w2 = corrected c w2.
Proof.
  intros Hs1. destruct (suggest_result c w1) as (st & Hs & Hext & _).
  rewrite Hs1 in Hs. injection Hs as _ ->.
  assert (Hsug : suggested (with_index c (index st)) w2 = suggested c w2).
  { unfold suggested, suggest.
    pose proof (search_same c (index st) w2 (weight (length w2))
                  (mkSearch [] [mkSuggestion w2 1 0] [mkSuggestion w2 1 0]
                            (index st))
                  (mkSearch [] [mkSuggestion w2 1 0] [mkSuggestion w2 1 0]
                            (suggestions c))) as Hsame.
    cbn [suggestions with_index].
    destruct (search _ (with_index c (index st)) w2 _) as [a|],
             (search _ c w2 _) as [b|]; simpl.
    - destruct Hsame as (Hf & _).
      + repeat split. intros k. simpl. apply reads_extends, Hext.
      + rewrite Hf. reflexivity.
    - exfalso. apply Hsame. repeat split. intros k. simpl.
      apply reads_extends, Hext.
    - exfalso. apply Hsame. repeat split. intros k. simpl.
      apply reads_extends, Hext.
    - reflexivity. }
  split; [exact Hsug|]. unfold corrected, correct. unfold suggested in Hsug.
  destruct (suggest (with_index c (index st)) w2) as [[ra ca]|],
           (suggest c w2) as [[rb cb]|]; simpl in *; congruence.
Qed.

(** The theorem after the query "hel" on the corrector that holds
    "hello" and "hell". *)
Lemma queries_witness_hel :
  exists (r1 : list Suggestion) (c1 : Corrector),
    suggest (hello_hell false) (py "hel") = Some (r1, c1) /\
    suggested c1 (py "help") = suggested (hello_hell false) (py "help").
Proof.
  destruct (suggest (hello_hell false) (py "hel")) as [[r1 c1]|] eqn:Hs.
  - exists r1, c1. split; [reflexivity|].
    exact (proj1 (queries_do_not_interfere _ _ _ _ (py "help") Hs)).
  - exfalso. destruct (suggest_total (hello_hell false) (py "hel")) as (r & c' & H).
    congruence.
Defined.

(** ** The index of a reachable corrector *)

(** In every reachable corrector the dictionary holds under a word a
    [Term] of that word with a positive count, and the index holds under
    a key distinct words of the dictionary only, each with count 0 and
    with the key as a subsequence, its distance being the number of
    characters the key lacks, at most the larger of 1 and
    [max_distance]. *)
Theorem indexed_suggestions_are_deletions (c : Corrector) :
  reachable c ->
  (forall (w : str) (e : option Term),
      dictionary c !! w = Some e ->
      exists t : Term, e = Some t /\ t_term t = w /\ 1 <= t_count t) /\
  forall (k : str) (l : list Suggestion),
    suggestions c !! k = Some l ->
    NoDup (map term l) /\
    forall s : Suggestion,
      s ∈ l ->
      count s = 0 /\
      k `sublist_of` term s /\
      distance s = Z.of_nat (length (term s) - length k) /\
      distance s <= Z.max 1 (max_distance c) /\
      exists t : Term, dictionary c !! term s = Some (Some t).
Proof.
  intros Hreach. apply reachable_sound in Hreach as [Hd Hi]. split.
  - intros w e He. specialize (Hd w). rewrite He in Hd.
    destruct e as [t|]; [|contradiction]. exists t. tauto.
  - intros k l Hk. destruct (Hi k l Hk) as [Hnd He]. split; [exact Hnd|].
    intros s Hs. apply (He s Hs).
Qed.

(** The theorem at the corrector that holds the one word "hello". *)
Lemma indexed_suggestions_witness :
  reachable (snd (add_entry (Faroo 2 false) hello)) /\
  forall (k : str) (l : list Suggestion),
    suggestions (snd (add_entry (Faroo 2 false) hello)) !! k = Some l ->
    NoDup (map term l).
Proof.
  split; [apply reach_add_entry, reach_new|].
  intros k l Hk.
  exact (proj1 (proj2 (indexed_suggestions_are_deletions _
                         (reach_add_entry _ hello (reach_new 2 false _))) k l Hk)).
Defined.
